(** * Contentful users / roles / teams export: a shallow embedding

    The development follows [fetch-contentful-users-and-groups.js]: the
    paginated fetch routine, the three collection procedures, role-name
    extraction, the merge into the unified user map and the final table.
    The ES-module variant of the script has the same functions and the same
    top-level block, with progress output added between the steps; that
    extra console output is not part of the model.

    Modelling decisions.
    - JavaScript strings are [string], read as their UTF-8 encoding; a
      string is falsy exactly when it is empty, and an absent
      ([undefined]/[null]) field is [None].
    - Plain objects used as dictionaries ([userMap], [userToTeams]) and the
      [Map] of the fetch routine are [gmap string _]; identifiers are assumed
      not to name a property inherited from [Object.prototype].  The order
      in which [Object.entries] and [Object.values] list the properties is
      not modelled: the lists taken from a map hold each binding once, in
      some order, and no statement below depends on that order.
    - The HTTP client and the file system are an abstract world [W] with two
      operations; console output, requests and file writes are recorded in a
      chronological trace.
    - The [while (true)] loop of the fetch routine is run with fuel; [None]
      means that the fuel ran out. *)

From Stdlib Require Import ZArith String Ascii List Lia.
From stdpp Require Import base option list strings pretty gmap fin_maps.

Local Open Scope Z_scope.
Local Open Scope string_scope.
Local Open Scope list_scope.

(** ** JavaScript primitives used by the script *)

Module JS.

Definition empty_str : string := EmptyString.

(** Truthiness of a value that is a string or absent. *)
Definition truthy (o : option string) : bool :=
  match o with
  | Some (String _ _) => true
  | _ => false
  end.

(** [x || ""] for a string-or-absent [x]. *)
Definition or_empty (o : option string) : string :=
  match o with
  | Some s => s
  | None => empty_str
  end.

(** Truthiness of the boolean-or-absent admin flag. *)
Definition truthy_flag (o : option bool) : bool :=
  match o with
  | Some b => b
  | None => false
  end.

Section SetModel.
Context {A : Type} `{EqDecision A}.

(** [Set.prototype.add]: a set remembers insertion order and ignores a
    value it already holds. *)
Definition Set_add (s : list A) (x : A) : list A :=
  if decide (x ∈ s) then s else s ++ [x].

(** [[...new Set(xs)]] *)
Definition new_Set (xs : list A) : list A := foldl Set_add [] xs.

(** Reference definition of "keep the first occurrence of each value",
    used to specify [new_Set]. *)
Fixpoint dedup_first (xs : list A) : list A :=
  match xs with
  | [] => []
  | x :: r => x :: filter (λ y, y ≠ x) (dedup_first r)
  end.
End SetModel.

(** [Array.prototype.join] on an array of strings. *)
Fixpoint join (sep : string) (xs : list string) : string :=
  match xs with
  | [] => empty_str
  | [x] => x
  | x :: r => x +:+ sep +:+ join sep r
  end.

(** [join] renders [undefined] and [null] elements as the empty string. *)
Definition join_opt (sep : string) (xs : list (option string)) : string :=
  join sep (or_empty <$> xs).

(** *** Trimming

    A [string] holds the UTF-8 encoding of the JavaScript string (code
    points of the Basic Multilingual Plane take one to three bytes).  The
    code points that [String.prototype.trim] removes are those of WhiteSpace
    (TAB, VT, FF, ZWNBSP and the category Space_Separator) and of
    LineTerminator (LF, CR, LS, PS). *)
Definition white_space_code_points : list N :=
  [0x0009; 0x000B; 0x000C; 0xFEFF;
   0x0020; 0x00A0; 0x1680;
   0x2000; 0x2001; 0x2002; 0x2003; 0x2004; 0x2005; 0x2006; 0x2007; 0x2008;
   0x2009; 0x200A; 0x202F; 0x205F; 0x3000;
   0x000A; 0x000D; 0x2028; 0x2029]%N.

(** UTF-8 encoding of a code point below U+10000. *)
Definition utf8_encode (n : N) : list ascii :=
  if (n <? 0x80)%N then [ascii_of_N n]
  else if (n <? 0x800)%N then
    [ascii_of_N (0xC0 + n / 0x40); ascii_of_N (0x80 + n mod 0x40)]
  else
    [ascii_of_N (0xE0 + n / 0x1000); ascii_of_N (0x80 + (n / 0x40) mod 0x40);
     ascii_of_N (0x80 + n mod 0x40)].

Definition white_space : list (list ascii) :=
  utf8_encode <$> white_space_code_points.

(** The bytes [e] are the encoding of one white-space code point. *)
Definition is_ws (e : list ascii) : bool := bool_decide (e ∈ white_space).

(** The same for bytes read from the end of the string backwards. *)
Definition is_ws_rev (e : list ascii) : bool := is_ws (reverse e).

(** Remove, from the front, every run of one, two or three bytes that [ws]
    accepts. *)
Fixpoint strip (ws : list ascii → bool) (l : list ascii) : list ascii :=
  match l with
  | [] => []
  | a :: r =>
      if ws [a] then strip ws r
      else match r with
           | [] => l
           | b :: r' =>
               if ws [a; b] then strip ws r'
               else match r' with
                    | [] => l
                    | c :: r'' => if ws [a; b; c] then strip ws r'' else l
                    end
           end
  end.

(** The list starts with a run that [ws] accepts. *)
Definition starts_with (ws : list ascii → bool) (l : list ascii) : bool :=
  match l with
  | [] => false
  | a :: r =>
      ws [a] ||
      match r with
      | [] => false
      | b :: r' =>
          ws [a; b] ||
          match r' with
          | [] => false
          | c :: _ => ws [a; b; c]
          end
      end
  end.

Definition trimStart (s : string) : string :=
  string_of_list_ascii (strip is_ws (list_ascii_of_string s)).

Definition trimEnd (s : string) : string :=
  string_of_list_ascii
    (reverse (strip is_ws_rev (reverse (list_ascii_of_string s)))).

Definition trim (s : string) : string := trimEnd (trimStart s).

(** A string with no white space at either end. *)
Definition no_outer_ws (s : string) : Prop :=
  starts_with is_ws (list_ascii_of_string s) = false ∧
  starts_with is_ws_rev (reverse (list_ascii_of_string s)) = false.

End JS.

(** ** Data model *)

(** One entry of a membership's [roles] array. *)
Record RoleEntry := mkRoleEntry { r_name : option string }.

(** An item of a page: a membership or a team.  Every field may be absent;
    [i_user_id] is [item.sys?.user?.sys?.id] and [i_sys_id] is
    [item.sys?.id]. *)
Record Item := mkItem {
  i_sys_id : option string;
  i_user_id : option string;
  i_name : option string;
  i_admin : option bool;
  i_roles : option (list RoleEntry);
  i_role : option string
}.

(** An entry of [includes.User]. *)
Record UserObj := mkUserObj {
  u_sys_id : option string;
  u_email : option string;
  u_firstName : option string;
  u_lastName : option string
}.

(** [resp.data] of one page. *)
Record Page := mkPage {
  p_items : option (list Item);
  p_total : option Z;
  p_includes_User : option (list UserObj)
}.

(** The unified user record held in [userMap]. *)
Record UserRecord := mkUserRecord {
  userId : string;
  email : string;
  name : string;
  orgRoles : list string;
  spaceRoles : list string;
  teams : list (option string)
}.

(** One object of [finalData]. *)
Record Row := mkRow {
  row_userId : string;
  row_email : string;
  row_name : string;
  row_orgRoles : string;
  row_spaceRoles : string;
  row_teams : string
}.

(** ** Role-name extraction *)

(** The [forEach] over [membership.roles]: push [r.name] when it is truthy. *)
Definition push_role (results : list string) (r : RoleEntry) : list string :=
  match r_name r with
  | Some (String c s) => results ++ [String c s]
  | _ => results
  end.

Definition getRoleNames (membership : Item) : list string :=
  let results := [] in
  let results :=
    if JS.truthy_flag (i_admin membership) then results ++ ["Admin"] else results in
  let results :=
    match i_roles membership with
    | Some (r :: rs) => foldl push_role results (r :: rs)
    | _ => results
    end in
  let results :=
    match i_role membership with
    | Some (String c s) => results ++ [String c s]
    | _ => results
    end in
  JS.new_Set results.

(** The three sources of role names, as the specification lists them. *)
Definition admin_label (m : Item) : list string :=
  if JS.truthy_flag (i_admin m) then ["Admin"] else [].

Definition named_roles (m : Item) : list string :=
  omap (λ r, if JS.truthy (r_name r) then r_name r else None)
       (default [] (i_roles m)).

Definition legacy_role (m : Item) : list string :=
  if JS.truthy (i_role m) then [JS.or_empty (i_role m)] else [].

(** ** Display name and email taken from the side table *)

Definition email_of (userObj : option UserObj) : string :=
  JS.or_empty (userObj ≫= u_email).

Definition name_of (userObj : option UserObj) : string :=
  JS.trim (JS.or_empty (userObj ≫= u_firstName) +:+ " " +:+
           JS.or_empty (userObj ≫= u_lastName)).

(** ** The world: HTTP client, file system, console *)

(** Outcome of a call that may throw. *)
Inductive Result (A : Type) : Type :=
| Ok (a : A)
| Throw (message : string).
Arguments Ok {A} a.
Arguments Throw {A} message.

(** The [params] and the URL handed to [axios.get]. *)
Record Request := mkRequest {
  req_url : string;
  req_auth : string;
  req_limit : Z;
  req_skip : Z;
  req_include : string
}.

(** The table handed to [fs.writeFileSync]: the header line and one list of
    cells per data line.  Quoting and line breaks are the business of the CSV
    library and are not modelled. *)
Record Table := mkTable {
  t_header : list string;
  t_rows : list (list string)
}.

(** What the script does to the outside, in order: a request sent, a
    line on the error or the standard console, and a call of
    [fs.writeFileSync] that returned normally.  A call that threw leaves no
    event; what it did to the disk is part of the world. *)
Inductive Event :=
| Get (r : Request)
| ConsoleError (text detail : string)
| ConsoleLog (text : string)
| FileWritten (path : string) (csv : Table).

(** How the top-level async function settles. *)
Inductive Completion :=
| Fulfilled
| Rejected (message : string).

(** The script never assigns [process.exitCode] and never calls
    [process.exit]: the status is zero unless the top-level promise is
    rejected. *)
Definition exit_status (c : Completion) : Z :=
  match c with
  | Fulfilled => 0
  | Rejected _ => 1
  end.

(** What one fetch call returns. *)
Record FetchResult := mkFetchResult {
  allItems : list Item;
  allUsers : gmap string UserObj
}.

(** The [forEach] over [includes.User]. *)
Definition set_user (allUsers : gmap string UserObj) (u : UserObj)
  : gmap string UserObj :=
  match u_sys_id u with
  | Some (String c s) => <[String c s := u]> allUsers
  | _ => allUsers
  end.

Definition collect_users (includes_User : option (list UserObj))
    (allUsers : gmap string UserObj) : gmap string UserObj :=
  match includes_User with
  | Some us => foldl set_user allUsers us
  | None => allUsers
  end.

(** ** Merge steps on the unified map *)

Definition new_record (userId email name : string) : UserRecord :=
  mkUserRecord userId email name [] [] [].

Definition with_orgRoles (names : list string) (u : UserRecord) : UserRecord :=
  mkUserRecord (userId u) (email u) (name u)
               (JS.new_Set (orgRoles u ++ names)) (spaceRoles u) (teams u).

Definition with_spaceRoles (names : list string) (u : UserRecord) : UserRecord :=
  mkUserRecord (userId u) (email u) (name u)
               (orgRoles u) (JS.new_Set (spaceRoles u ++ names)) (teams u).

Definition with_teams (names : list (option string)) (u : UserRecord) : UserRecord :=
  mkUserRecord (userId u) (email u) (name u)
               (orgRoles u) (spaceRoles u) (JS.new_Set (teams u ++ names)).

(** [if (!userMap[userId]) userMap[userId] = {...}] *)
Definition ensure_record (userId email name : string)
    (userMap : gmap string UserRecord) : gmap string UserRecord :=
  match userMap !! userId with
  | Some _ => userMap
  | None => <[userId := new_record userId email name]> userMap
  end.

(** Body of the loop over organization memberships. *)
Definition org_step (orgUsers : gmap string UserObj)
    (userMap : gmap string UserRecord) (membership : Item)
  : gmap string UserRecord :=
  match i_user_id membership with
  | Some (String c s) =>
      let userId := String c s in
      let orgRoleNames := getRoleNames membership in
      let userObj := orgUsers !! userId in
      let email := email_of userObj in
      let name := name_of userObj in
      alter (with_orgRoles orgRoleNames) userId
            (ensure_record userId email name userMap)
  | _ => userMap
  end.

(** Body of the loop over space memberships. *)
Definition space_step (spaceUsers : gmap string UserObj)
    (userMap : gmap string UserRecord) (membership : Item)
  : gmap string UserRecord :=
  match i_user_id membership with
  | Some (String c s) =>
      let userId := String c s in
      let spaceRoleNames := getRoleNames membership in
      let userObj := spaceUsers !! userId in
      let email := email_of userObj in
      let name := name_of userObj in
      alter (with_spaceRoles spaceRoleNames) userId
            (ensure_record userId email name userMap)
  | _ => userMap
  end.

(** Body of the loop over [Object.entries(userToTeams)]. *)
Definition team_step (userMap : gmap string UserRecord)
    (entry : string * list (option string)) : gmap string UserRecord :=
  let '(userId, teamNames) := entry in
  alter (with_teams teamNames) userId
        (ensure_record userId JS.empty_str JS.empty_str userMap).

(** Body of the inner loop of [fetchTeamMemberships]. *)
Definition team_member_step (teamName : option string)
    (userToTeams : gmap string (list (option string))) (membership : Item)
  : gmap string (list (option string)) :=
  match i_user_id membership with
  | Some (String c s) =>
      let userId := String c s in
      let userToTeams :=
        match userToTeams !! userId with
        | Some _ => userToTeams
        | None => <[userId := []]> userToTeams
        end in
      alter (λ l, l ++ [teamName]) userId userToTeams
  | _ => userToTeams
  end.

(** The three merge loops, one after the other. *)
Definition merge_org (org : FetchResult) (userMap : gmap string UserRecord) :=
  foldl (org_step (allUsers org)) userMap (allItems org).

Definition merge_space (space : FetchResult) (userMap : gmap string UserRecord) :=
  foldl (space_step (allUsers space)) userMap (allItems space).

(** [Object.entries] of a dictionary: its bindings, each key once. *)
Definition Object_entries {A} (o : gmap string A) : list (string * A) :=
  map_to_list o.

Definition Object_values {A} (o : gmap string A) : list A :=
  (map_to_list o).*2.

Definition merge_teams (userToTeams : gmap string (list (option string)))
    (userMap : gmap string UserRecord) :=
  foldl team_step userMap (Object_entries userToTeams).

Definition aggregate (org space : FetchResult)
    (userToTeams : gmap string (list (option string)))
  : gmap string UserRecord :=
  merge_teams userToTeams (merge_space space (merge_org org ∅)).

(** ** Final table *)

Definition to_row (u : UserRecord) : Row :=
  mkRow (userId u) (email u) (name u)
        (JS.join "; " (orgRoles u))
        (JS.join "; " (spaceRoles u))
        (JS.join_opt "; " (teams u)).

Definition finalData (userMap : gmap string UserRecord) : list Row :=
  to_row <$> Object_values userMap.

Definition fields : list string :=
  ["userId"; "email"; "name"; "orgRoles"; "spaceRoles"; "teams"].

(** Property access [row[field]]; a field the row does not have gives an
    empty cell. *)
Definition get_field (r : Row) (field : string) : string :=
  if decide (field = "userId") then row_userId r
  else if decide (field = "email") then row_email r
  else if decide (field = "name") then row_name r
  else if decide (field = "orgRoles") then row_orgRoles r
  else if decide (field = "spaceRoles") then row_spaceRoles r
  else if decide (field = "teams") then row_teams r
  else JS.empty_str.

(** [new Parser({ fields }).parse(data)], as a table. *)
Definition Parser_parse (fields : list string) (data : list Row) : Table :=
  mkTable fields ((λ r, get_field r <$> fields) <$> data).

(** ** The script over an abstract world *)

Definition BASE_URL : string := "https://api.contentful.com".
Definition limit : Z := 100.

(** Number of pages a collection of [total] items takes: at least one, and
    otherwise the ceiling of [total / limit]. *)
Definition pages_needed (total : Z) : Z := Z.max 1 ((total + 99) / 100).

Section Script.
Context {W : Type}.

(** [axios.get]: the response body, or a rejection with its message. *)
Variable axios_get : Request → W → Result Page * W.
(** [fs.writeFileSync]. *)
Variable writeFileSync : string → Table → W → Result unit * W.
(** The two environment variables. *)
Variables MANAGEMENT_API_KEY ORGANIZATION_ID : string.

(** World and trace. *)
Definition St : Type := W * list Event.

(** Computations that may run out of fuel. *)
Definition M (A : Type) : Type := St → option (A * St).

Definition ret {A} (a : A) : M A := λ st, Some (a, st).

Definition bind {A B} (c : M A) (k : A → M B) : M B :=
  λ st, match c st with
        | Some (a, st') => k a st'
        | None => None
        end.

Definition emit (e : Event) (st : St) : St := (st.1, st.2 ++ [e]).

Local Notation "'do' x <- c ; k" := (bind c (λ x, k))
  (at level 10, x pattern, c at level 100, k at level 200).

Definition page_request (url includeParams : string) (skip : Z) : Request :=
  mkRequest url ("Bearer " +:+ MANAGEMENT_API_KEY) limit skip includeParams.

Definition fetch_warning (url : string) : string :=
  "Error fetching data from " +:+ url +:+ ":".

(** What the [try] body does with the data of a page: push the items
    (default: none) and record the included users. *)
Definition add_page (acc : FetchResult) (data : Page) : FetchResult :=
  let items := default [] (p_items data) in
  mkFetchResult (allItems acc ++ items)
                (collect_users (p_includes_User data) (allUsers acc)).

(** One run of the [while (true)] loop per unit of fuel. *)
Fixpoint fetch_loop (fuel : nat) (url includeParams : string) (skip : Z)
    (acc : FetchResult) (st : St) : option (FetchResult * St) :=
  match fuel with
  | O => None
  | S fuel =>
      let req := page_request url includeParams skip in
      let '(resp, w) := axios_get req st.1 in
      let st := (w, st.2 ++ [Get req]) in
      match resp with
      | Ok data =>
          let total := default 0 (p_total data) in
          let acc := add_page acc data in
          let skip := skip + limit in
          if bool_decide (skip >= total) then Some (acc, st)
          else fetch_loop fuel url includeParams skip acc st
      | Throw message =>
          Some (acc, emit (ConsoleError (fetch_warning url) message) st)
      end
  end.

Definition fetchPagedDataWithIncludes (fuel : nat) (url includeParams : string)
  : M FetchResult :=
  fetch_loop fuel url includeParams 0 (mkFetchResult [] ∅).

Definition org_url : string :=
  BASE_URL +:+ "/organizations/" +:+ ORGANIZATION_ID +:+ "/organization_memberships".

Definition space_url : string :=
  BASE_URL +:+ "/organizations/" +:+ ORGANIZATION_ID +:+ "/space_memberships".

Definition teams_url : string :=
  BASE_URL +:+ "/organizations/" +:+ ORGANIZATION_ID +:+ "/teams".

Definition team_memberships_url (teamId : string) : string :=
  BASE_URL +:+ "/organizations/" +:+ ORGANIZATION_ID +:+ "/teams/" +:+ teamId
           +:+ "/team_memberships".

Definition fetchOrganizationMemberships (fuel : nat) : M FetchResult :=
  fetchPagedDataWithIncludes fuel org_url "sys.user".

Definition fetchSpaceMemberships (fuel : nat) : M FetchResult :=
  fetchPagedDataWithIncludes fuel space_url "sys.user".

(** The loop over [allTeams]. *)
Fixpoint team_loop (fuel : nat) (allTeams : list Item)
    (userToTeams : gmap string (list (option string)))
  : M (gmap string (list (option string))) :=
  match allTeams with
  | [] => ret userToTeams
  | team :: rest =>
      let teamName := i_name team in
      match i_sys_id team with
      | Some (String c s) =>
          let teamId := String c s in
          do r <- fetchPagedDataWithIncludes fuel (team_memberships_url teamId)
                    "sys.user,sys.organizationMembership";
          team_loop fuel rest
            (foldl (team_member_step teamName) userToTeams (allItems r))
      | _ => team_loop fuel rest userToTeams
      end
  end.

Definition fetchTeamMemberships (fuel : nat)
  : M (gmap string (list (option string))) :=
  do r <- fetchPagedDataWithIncludes fuel teams_url JS.empty_str;
  team_loop fuel (allItems r) ∅.

Definition output_path : string := "contentful_users.csv".
Definition success_message : string :=
  "Wrote contentful_users.csv with user + role + team data.".

(** The three passes of the [try] block; the value is the final [userMap]. *)
Definition build_userMap (fuel : nat) : M (gmap string UserRecord) :=
  let userMap := ∅ in
  do org <- fetchOrganizationMemberships fuel;
  let userMap := merge_org org userMap in
  do space <- fetchSpaceMemberships fuel;
  let userMap := merge_space space userMap in
  do userToTeams <- fetchTeamMemberships fuel;
  let userMap := merge_teams userToTeams userMap in
  ret userMap.

(** The body of the [try] block: a value, or the exception it throws. *)
Definition try_block (fuel : nat) : M (Result unit) :=
  do userMap <- build_userMap fuel;
  let csv := Parser_parse fields (finalData userMap) in
  λ st,
    match writeFileSync output_path csv st.1 with
    | (Ok _, w) =>
        Some (Ok (), emit (ConsoleLog success_message)
                          (emit (FileWritten output_path csv) (w, st.2)))
    | (Throw message, w) => Some (Throw message, (w, st.2))
    end.

(** The async function invoked at top level: [try { ... } catch (error)
    { console.error("Script error:", error) }]. *)
Definition main (fuel : nat) : M Completion :=
  do r <- try_block fuel;
  match r with
  | Ok _ => ret Fulfilled
  | Throw message =>
      λ st, Some (Fulfilled, emit (ConsoleError "Script error:" message) st)
  end.

(** The responses a list of requests receives, issued one after another. *)
Fixpoint responses (reqs : list Request) (w : W) : list (Result Page) :=
  match reqs with
  | [] => []
  | r :: rs => (axios_get r w).1 :: responses rs (axios_get r w).2
  end.

Fixpoint world_after (reqs : list Request) (w : W) : W :=
  match reqs with
  | [] => w
  | r :: rs => world_after rs (axios_get r w).2
  end.

(** The requests of the first [n] pages. *)
Definition page_requests (url includeParams : string) (n : nat) : list Request :=
  (λ k : nat, page_request url includeParams (limit * Z.of_nat k)) <$> seq 0 n.

End Script.

(** ** Sample worlds *)

Module Sample.

Definition member (uid : string) : Item :=
  mkItem None (Some uid) None None None None.

(** [n] memberships of distinct users. *)
Definition collection (n : nat) : list Item :=
  (λ k : nat, member ("U" +:+ pretty k)) <$> seq 0 n.

(** A server that holds one collection and honours [limit] and [skip]. *)
Definition paged (db : list Item) (req : Request) (w : unit)
  : Result Page * unit :=
  (Ok (mkPage (Some (take (Z.to_nat (req_limit req))
                          (drop (Z.to_nat (req_skip req)) db)))
              (Some (Z.of_nat (length db))) None), w).

(** A server that answers one page and then rejects every request; the
    world counts the requests it has seen. *)
Definition flaky (db : list Item) (req : Request) (w : nat)
  : Result Page * nat :=
  match w with
  | O => (Ok (mkPage (Some (take 100 db)) (Some (Z.of_nat (length db))) None), S w)
  | S _ => (Throw "Request failed with status code 429", S w)
  end.

(** An organization with one user, who is an organization admin, an editor
    of a space and a member of the team Design; a second user appears only
    in that team; one team and one membership lack their identifier. *)
Definition ann : UserObj :=
  mkUserObj (Some "U1") (Some "ann@example.com") (Some "Ann") (Some "Lee").

Definition org_page : Page :=
  mkPage (Some [mkItem (Some "M1") (Some "U1") None (Some true) None None;
                mkItem (Some "M0") None None (Some true) None None])
         (Some 2) (Some [ann]).

Definition space_page : Page :=
  mkPage (Some [mkItem (Some "S1") (Some "U1") None None
                       (Some [mkRoleEntry (Some "Editor")]) None])
         (Some 1) (Some [ann]).

Definition teams_page : Page :=
  mkPage (Some [mkItem (Some "T1") None (Some "Design") None None None;
                mkItem None None (Some "Ghost") None None None])
         (Some 2) None.

Definition design_page : Page :=
  mkPage (Some [member "U1"; member "U2";
                mkItem (Some "TM3") None None None None None])
         (Some 3) (Some [ann]).

(** The server of that organization; [space_up] tells whether the space
    memberships endpoint answers. *)
Definition acme (space_up : bool) (req : Request) (w : unit)
  : Result Page * unit :=
  if decide (req_url req = org_url "acme") then (Ok org_page, w)
  else if decide (req_url req = space_url "acme") then
    if space_up then (Ok space_page, w)
    else (Throw "Request failed with status code 500", w)
  else if decide (req_url req = teams_url "acme") then (Ok teams_page, w)
  else if decide (req_url req = team_memberships_url "acme" "T1") then
    (Ok design_page, w)
  else (Throw "Request failed with status code 404", w).

Definition disk_ok (path : string) (csv : Table) (w : unit) : Result unit * unit :=
  (Ok (), w).

Definition disk_full (path : string) (csv : Table) (w : unit) : Result unit * unit :=
  (Throw "ENOSPC: no space left on device, write", w).

(** A server whose reported total always lies beyond the next offset. *)
Definition endless (req : Request) (w : unit) : Result Page * unit :=
  (Ok (mkPage (Some [member "U1"]) (Some (req_skip req + 200)) None), w).

(** A server that rejects every request. *)
Definition down (req : Request) (w : unit) : Result Page * unit :=
  (Throw "connect ECONNREFUSED", w).

(** A server whose collection shrinks between two requests: the first page
    reports 250 items, the later ones 150. *)
Definition shrinking (req : Request) (w : nat) : Result Page * nat :=
  (Ok (mkPage (Some (take 100 (drop (Z.to_nat (req_skip req)) (collection 150))))
              (Some (match w with O => 250 | S _ => 150 end)) None), S w).

(** The organization above, on a server that answers unknown addresses
    with an empty page instead of a rejection. *)
Definition calm (req : Request) (w : unit) : Result Page * unit :=
  match (acme true req w).1 with
  | Ok data => (Ok data, w)
  | Throw _ => (Ok (mkPage None None None), w)
  end.

End Sample.

(** ** Vocabulary of the properties *)

(** The user identifier an item resolves to: the item is processed exactly
    when [item.sys?.user?.sys?.id] is truthy. *)
Definition user_id_of (it : Item) : option string :=
  if JS.truthy (i_user_id it) then i_user_id it else None.

(** The three name lists of a record hold no value twice. *)
Definition record_dedup (r : UserRecord) : Prop :=
  NoDup (orgRoles r) ∧ NoDup (spaceRoles r) ∧ NoDup (teams r).

(** Invariant of [userMap]: every record is stored under its own identifier
    and its lists are duplicate free. *)
Definition userMap_inv (userMap : gmap string UserRecord) : Prop :=
  ∀ k r, userMap !! k = Some r → userId r = k ∧ record_dedup r.

(** Identity fields untouched. *)
Definition same_identity (r r' : UserRecord) : Prop :=
  userId r' = userId r ∧ email r' = email r ∧ name r' = name r.

(** A later state of a record: same identity fields, and every list extends
    the earlier one at its end. *)
Definition record_extends (r r' : UserRecord) : Prop :=
  same_identity r r' ∧
  orgRoles r `prefix_of` orgRoles r' ∧
  spaceRoles r `prefix_of` spaceRoles r' ∧
  teams r `prefix_of` teams r'.

(** A later state of the map: no record is lost and each one extends its
    earlier state. *)
Definition userMap_extends (m m' : gmap string UserRecord) : Prop :=
  ∀ k r, m !! k = Some r → ∃ r', m' !! k = Some r' ∧ record_extends r r'.

(** What a step may do to the record it touches. *)
Definition updates_lists (f : UserRecord → UserRecord) : Prop :=
  ∀ r, same_identity r (f r) ∧
       (record_dedup r → record_dedup (f r) ∧ record_extends r (f r)).

(** No record is lost and the identity fields of each one stay as they
    are. *)
Definition userMap_keeps (m m' : gmap string UserRecord) : Prop :=
  ∀ k r, m !! k = Some r → ∃ r', m' !! k = Some r' ∧ same_identity r r'.

(** The cells of the row of a record. *)
Definition cells_of (u : UserRecord) : list string :=
  [userId u; email u; name u; JS.join "; " (orgRoles u);
   JS.join "; " (spaceRoles u); JS.join_opt "; " (teams u)].

(** The items a response contributes: those of its page, none when the
    request failed. *)
Definition items_of (resp : Result Page) : list Item :=
  match resp with
  | Ok data => default [] (p_items data)
  | Throw _ => []
  end.

(** The identifiers a list of membership items resolves to. *)
Definition user_ids (items : list Item) : list string := omap user_id_of items.

(** The key under which the fetch routine files an included user: its
    [sys.id] when that is truthy. *)
Definition user_key (u : UserObj) : option string :=
  if JS.truthy (u_sys_id u) then u_sys_id u else None.

(** The included users of a page, and those filed under [k]. *)
Definition includes_of (data : Page) : list UserObj :=
  default [] (p_includes_User data).

Definition users_with_key (k : string) (us : list UserObj) : list UserObj :=
  filter (λ u, user_key u = Some k) us.

(** The items of a list that resolve to the user [k], and the role names
    they carry, in item order. *)
Definition items_for (k : string) (items : list Item) : list Item :=
  filter (λ it, user_id_of it = Some k) items.

Definition roles_for (k : string) (items : list Item) : list string :=
  concat (getRoleNames <$> items_for k items).

(** Where the email and the name of the record of [k] come from: the side
    table of the first pass that meets [k]. *)
Definition identity_source (org space : FetchResult) (k : string)
  : option UserObj :=
  if decide (k ∈ user_ids (allItems org)) then allUsers org !! k
  else if decide (k ∈ user_ids (allItems space)) then allUsers space !! k
  else None.

(** Invariant of [userToTeams]: no empty key and no empty list. *)
Definition userToTeams_inv (userToTeams : gmap string (list (option string)))
  : Prop :=
  ∀ k ts, userToTeams !! k = Some ts → k ≠ JS.empty_str ∧ ts ≠ [].

(** How a fetch call can end: after its last page, or on a failed
    request. *)
Definition ending (last_response : Result Page) (url : string) : list Event :=
  match last_response with
  | Ok _ => []
  | Throw message => [ConsoleError (fetch_warning url) message]
  end.

(** The membership requests of the teams that have an identifier, one per
    team, in team order. *)
Definition team_requests (KEY ORG : string) (allTeams : list Item) : list Request :=
  omap (λ team,
          if JS.truthy (i_sys_id team)
          then Some (page_request KEY
                       (team_memberships_url ORG (JS.or_empty (i_sys_id team)))
                       "sys.user,sys.organizationMembership" 0)
          else None)
       allTeams.

(** Reference definition of joining names with a separator, as the
    specification words it: nothing for no name; otherwise the first name,
    and then each further name preceded by the separator. *)
Definition joined_with (sep : string) (names : list string) : string :=
  match names with
  | [] => JS.empty_str
  | first :: more => foldl (λ acc next, acc +:+ sep +:+ next) first more
  end.

(** The six cells of a record, with the lists joined after the reference
    definition. *)
Definition expected_cells (u : UserRecord) : list string :=
  [userId u; email u; name u;
   joined_with "; " (orgRoles u);
   joined_with "; " (spaceRoles u);
   joined_with "; " (JS.or_empty <$> teams u)].

(** * Properties *)

(** ** Sets in insertion order *)

Section SetFacts.
Context {A : Type} `{EqDecision A}.
Implicit Types (l acc : list A) (x : A).

Lemma filter_all (P : A → Prop) `{!∀ x, Decision (P x)} l :
  (∀ x, x ∈ l → P x) → filter P l = l.
Proof.
  induction l as [|a l IH]; intros Hall; [done|].
  rewrite filter_cons_True by (apply Hall; left).
  f_equal. apply IH. intros y Hy. apply Hall. by right.
Qed.

Lemma filter_none (P : A → Prop) `{!∀ x, Decision (P x)} l :
  (∀ x, x ∈ l → ¬ P x) → filter P l = [].
Proof.
  induction l as [|a l IH]; intros Hall; [done|].
  rewrite filter_cons_False by (apply Hall; left).
  apply IH. intros y Hy. apply Hall. by right.
Qed.

Lemma Set_add_fold acc l :
  foldl JS.Set_add acc l = acc ++ filter (λ y, y ∉ acc) (JS.dedup_first l).
Proof.
  revert acc. induction l as [|x l IH]; intros acc; simpl.
  - by rewrite app_nil_r.
  - rewrite IH. unfold JS.Set_add. destruct (decide (x ∈ acc)) as [Hin|Hout].
    + rewrite filter_cons_False by (intros Hn; by apply Hn).
      f_equal. rewrite list_filter_filter. apply list_filter_iff.
      intros y. split; [|by intros [? _]]. intros Hy. split; [done|]. by intros ->.
    + rewrite filter_cons_True by done.
      rewrite <- app_assoc. simpl. do 2 f_equal.
      rewrite list_filter_filter. apply list_filter_iff.
      intros y. rewrite elem_of_app, list_elem_of_singleton. split.
      * intros Hn. split; [intros ?; apply Hn; by left|intros ->; apply Hn; by right].
      * intros [H1 H2] [?|?]; done.
Qed.

Lemma new_Set_dedup_first l : JS.new_Set l = JS.dedup_first l.
Proof.
  unfold JS.new_Set. rewrite Set_add_fold. simpl.
  apply filter_all. intros y _. apply not_elem_of_nil.
Qed.

Lemma elem_of_dedup_first l x : x ∈ JS.dedup_first l ↔ x ∈ l.
Proof.
  induction l as [|a l IH]; simpl; [done|].
  rewrite !elem_of_cons, list_elem_of_filter, IH.
  destruct (decide (x = a)); tauto.
Qed.

Lemma NoDup_dedup_first l : NoDup (JS.dedup_first l).
Proof.
  induction l as [|a l IH]; simpl; [constructor|].
  constructor; [|by apply NoDup_filter].
  rewrite list_elem_of_filter. tauto.
Qed.

Lemma dedup_first_NoDup l : NoDup l → JS.dedup_first l = l.
Proof.
  induction 1 as [|a l Hnotin Hnd IH]; simpl; [done|].
  rewrite IH. f_equal. apply filter_all.
  intros y Hy ->. done.
Qed.

Lemma elem_of_new_Set l x : x ∈ JS.new_Set l ↔ x ∈ l.
Proof. rewrite new_Set_dedup_first. apply elem_of_dedup_first. Qed.

Lemma NoDup_new_Set l : NoDup (JS.new_Set l).
Proof. rewrite new_Set_dedup_first. apply NoDup_dedup_first. Qed.

Lemma new_Set_NoDup l : NoDup l → JS.new_Set l = l.
Proof. rewrite new_Set_dedup_first. apply dedup_first_NoDup. Qed.

Lemma new_Set_idemp l : JS.new_Set (JS.new_Set l) = JS.new_Set l.
Proof. apply new_Set_NoDup, NoDup_new_Set. Qed.

(** The union [[...new Set([...old, ...new])]] keeps [old] in place and
    appends the values of [new] that [old] does not hold, first occurrence
    first. *)
Lemma new_Set_union (old new : list A) :
  NoDup old →
  JS.new_Set (old ++ new) = old ++ filter (λ y, y ∉ old) (JS.dedup_first new).
Proof.
  intros Hnd. unfold JS.new_Set. rewrite foldl_app.
  fold (JS.new_Set old). rewrite (new_Set_NoDup old Hnd). apply Set_add_fold.
Qed.

Lemma new_Set_union_twice (old new : list A) :
  JS.new_Set (JS.new_Set (old ++ new) ++ new) = JS.new_Set (old ++ new).
Proof.
  rewrite new_Set_union by apply NoDup_new_Set.
  rewrite <- (app_nil_r (JS.new_Set (old ++ new))) at 2. f_equal.
  apply filter_none.
  intros y Hy Hn. apply (proj1 (elem_of_dedup_first _ _)) in Hy. apply Hn.
  apply elem_of_new_Set. apply elem_of_app. by right.
Qed.

End SetFacts.

(** ** Role-name extraction *)

Lemma push_role_fold (acc : list string) (rs : list RoleEntry) :
  foldl push_role acc rs =
  acc ++ omap (λ r, if JS.truthy (r_name r) then r_name r else None) rs.
Proof.
  revert acc. induction rs as [|r rs IH]; intros acc; simpl.
  - by rewrite app_nil_r.
  - rewrite IH. unfold push_role. destruct (r_name r) as [[|c s]|]; simpl; try done.
    by rewrite <- app_assoc.
Qed.

Lemma getRoleNames_sources (m : Item) :
  getRoleNames m = JS.new_Set (admin_label m ++ named_roles m ++ legacy_role m).
Proof.
  unfold getRoleNames, admin_label, named_roles, legacy_role. f_equal.
  assert (Hroles : ∀ acc : list string,
            match i_roles m with
            | Some (r :: rs) => foldl push_role acc (r :: rs)
            | _ => acc
            end = acc ++ omap (λ r, if JS.truthy (r_name r) then r_name r else None)
                              (default [] (i_roles m))).
  { intros acc. destruct (i_roles m) as [[|r rs]|]; simpl;
      rewrite ?app_nil_r; try done.
    apply (push_role_fold acc (r :: rs)). }
  rewrite Hroles.
  destruct (i_role m) as [[|c s]|]; simpl; rewrite ?app_nil_r;
    destruct (JS.truthy_flag (i_admin m)); simpl; try done;
    by rewrite <- ?app_assoc.
Qed.

(** C4. Role-name extraction returns the admin label (when the admin flag
    is truthy), then the truthy names of the [roles] entries in array order,
    then the legacy role (when truthy), each value kept at its first
    occurrence only: the list has no duplicates, holds exactly the values of
    the three sources in their order, starts with the admin label when the
    flag is set, and deduplicating it again changes nothing.  The result is
    a function of the item alone, so repeated calls agree. *)
Theorem getRoleNames_ordered_dedup (m : Item) :
  let sources := admin_label m ++ named_roles m ++ legacy_role m in
  getRoleNames m = JS.dedup_first sources ∧
  NoDup (getRoleNames m) ∧
  (∀ x, x ∈ getRoleNames m ↔ x ∈ sources) ∧
  admin_label m `prefix_of` getRoleNames m ∧
  getRoleNames m `sublist_of` sources ∧
  JS.new_Set (getRoleNames m) = getRoleNames m.
Proof.
  intros sources. rewrite getRoleNames_sources. fold sources.
  repeat split.
  - apply new_Set_dedup_first.
  - apply NoDup_new_Set.
  - apply elem_of_new_Set.
  - apply elem_of_new_Set.
  - rewrite new_Set_dedup_first. unfold sources, admin_label.
    destruct (JS.truthy_flag (i_admin m)); simpl.
    + by apply prefix_cons, prefix_nil.
    + apply prefix_nil.
  - rewrite new_Set_dedup_first. clear. induction sources as [|x l IH]; simpl.
    + constructor.
    + constructor. etrans; [apply sublist_filter|done].
  - apply new_Set_idemp.
Qed.

Example getRoleNames_all_sources :
  getRoleNames
    (mkItem None (Some "U1") None (Some true)
            (Some [mkRoleEntry (Some "Editor"); mkRoleEntry None;
                   mkRoleEntry (Some "Admin"); mkRoleEntry (Some "Editor");
                   mkRoleEntry (Some JS.empty_str); mkRoleEntry (Some "Author")])
            (Some "Editor"))
  = ["Admin"; "Editor"; "Author"].
Proof. reflexivity. Qed.

Example getRoleNames_nothing :
  getRoleNames (mkItem None (Some "U1") None None None None) = [].
Proof. reflexivity. Qed.

(** ** Trimming and the display name *)

Section Strip.
Context (ws : list ascii → bool).
#[local] Arguments JS.strip : simpl never.

(** Induction that may step over one, two or three bytes. *)
Lemma list_ind_upto3 (P : list ascii → Prop) :
  (∀ l, (∀ k, (length k < length l)%nat → P k) → P l) → ∀ l, P l.
Proof.
  intros Hstep l. remember (length l) as n eqn:Hn. revert l Hn.
  induction n as [n IH] using lt_wf_ind. intros l ->.
  apply Hstep. intros k Hk. by apply (IH (length k)).
Qed.

Lemma strip_unfold (a : ascii) (r : list ascii) :
  JS.strip ws (a :: r) =
  if ws [a] then JS.strip ws r
  else match r with
       | [] => a :: r
       | b :: r' =>
           if ws [a; b] then JS.strip ws r'
           else match r' with
                | [] => a :: r
                | c :: r'' => if ws [a; b; c] then JS.strip ws r'' else a :: r
                end
       end.
Proof. done. Qed.

Lemma strip_starts (l : list ascii) : JS.starts_with ws (JS.strip ws l) = false.
Proof.
  induction l as [l IH] using list_ind_upto3.
  destruct l as [|a r]; [done|]. rewrite strip_unfold.
  destruct (ws [a]) eqn:Ha; [apply IH; simpl; lia|].
  destruct r as [|b r']; [simpl; by rewrite Ha|].
  destruct (ws [a; b]) eqn:Hab; [apply IH; simpl; lia|].
  destruct r' as [|c r'']; [simpl; by rewrite Ha, Hab|].
  destruct (ws [a; b; c]) eqn:Habc; [apply IH; simpl; lia|].
  simpl. by rewrite Ha, Hab, Habc.
Qed.

Lemma strip_fixed (l : list ascii) :
  JS.starts_with ws l = false → JS.strip ws l = l.
Proof.
  destruct l as [|a r]; [done|]. rewrite strip_unfold. simpl.
  intros [Ha Hr]%orb_false_iff. rewrite Ha.
  destruct r as [|b r']; [done|]. apply orb_false_iff in Hr as [Hab Hr].
  rewrite Hab. destruct r' as [|c r'']; [done|]. by rewrite Hr.
Qed.

Lemma strip_suffix (l : list ascii) : JS.strip ws l `suffix_of` l.
Proof.
  induction l as [l IH] using list_ind_upto3.
  destruct l as [|a r]; [done|]. rewrite strip_unfold.
  destruct (ws [a]); [apply suffix_cons_r, IH; simpl; lia|].
  destruct r as [|b r']; [done|].
  destruct (ws [a; b]); [do 2 apply suffix_cons_r; apply IH; simpl; lia|].
  destruct r' as [|c r'']; [done|].
  destruct (ws [a; b; c]); [do 3 apply suffix_cons_r; apply IH; simpl; lia|done].
Qed.

Lemma starts_with_prefix (l1 l2 : list ascii) :
  l1 `prefix_of` l2 → JS.starts_with ws l1 = true → JS.starts_with ws l2 = true.
Proof.
  intros [k ->]. destruct l1 as [|a r]; [done|]. simpl.
  destruct (ws [a]); [done|]. simpl.
  destruct r as [|b r']; [done|]. simpl.
  destruct (ws [a; b]); [done|]. simpl.
  by destruct r' as [|c r''].
Qed.

(** Appending one white-space byte that cannot end a longer white-space
    run: it is stripped together with a string that is all white space, and
    stays at the end otherwise. *)
Lemma strip_snoc (sp : ascii) (l : list ascii) :
  ws [sp] = true → (∀ a, ws [a; sp] = false) → (∀ a b, ws [a; b; sp] = false) →
  JS.strip ws (l ++ [sp]) =
  match JS.strip ws l with
  | [] => []
  | t => t ++ [sp]
  end.
Proof.
  intros H1 H2 H3. induction l as [l IH] using list_ind_upto3.
  destruct l as [|a r].
  - simpl. rewrite strip_unfold. by rewrite H1.
  - simpl. rewrite !strip_unfold.
    destruct (ws [a]) eqn:Ha; [apply IH; simpl; lia|].
    destruct r as [|b r']; simpl; [by rewrite H2|].
    destruct (ws [a; b]) eqn:Hab; [apply IH; simpl; lia|].
    destruct r' as [|c r'']; simpl; [by rewrite H3|].
    destruct (ws [a; b; c]) eqn:Habc; [apply IH; simpl; lia|done].
Qed.

End Strip.

Lemma bytes_app (s1 s2 : string) :
  list_ascii_of_string (s1 +:+ s2) =
  list_ascii_of_string s1 ++ list_ascii_of_string s2.
Proof. induction s1 as [|c r IH]; simpl; [done|]. by rewrite IH. Qed.

Lemma is_ws_space : JS.is_ws [" "%char] = true.
Proof. vm_compute. reflexivity. Qed.

(** The space is the only white-space encoding that ends with the byte of
    a space. *)
Lemma is_ws_ends_with_space (e : list ascii) :
  JS.is_ws e = true → last e = Some " "%char → e = [" "%char].
Proof.
  intros Hin Hlast. apply bool_decide_eq_true_1 in Hin.
  assert (Hall : Forall (λ e, last e = Some " "%char → e = [" "%char])
                        JS.white_space).
  { apply (bool_decide_unpack _). vm_compute. exact I. }
  by apply (proj1 (Forall_forall _ _) Hall e Hin).
Qed.

Lemma is_ws_two_space (a : ascii) : JS.is_ws [a; " "%char] = false.
Proof.
  destruct (JS.is_ws [a; " "%char]) eqn:Hws; [|done].
  by apply is_ws_ends_with_space in Hws.
Qed.

Lemma is_ws_three_space (a b : ascii) : JS.is_ws [a; b; " "%char] = false.
Proof.
  destruct (JS.is_ws [a; b; " "%char]) eqn:Hws; [|done].
  by apply is_ws_ends_with_space in Hws.
Qed.

Lemma bytes_trimStart (s : string) :
  list_ascii_of_string (JS.trimStart s) = JS.strip JS.is_ws (list_ascii_of_string s).
Proof. unfold JS.trimStart. apply list_ascii_of_string_of_list_ascii. Qed.

Lemma trim_append_space (s : string) : JS.trim (s +:+ " ") = JS.trim s.
Proof.
  unfold JS.trim, JS.trimEnd. rewrite !bytes_trimStart, bytes_app. simpl.
  rewrite (strip_snoc JS.is_ws " "%char);
    [|apply is_ws_space|apply is_ws_two_space|apply is_ws_three_space].
  destruct (JS.strip JS.is_ws (list_ascii_of_string s)) as [|a t] eqn:Ht; [done|].
  rewrite reverse_app. change (reverse [" "%char]) with [" "%char].
  cbn [app]. rewrite strip_unfold.
  change (JS.is_ws_rev [" "%char]) with (JS.is_ws [" "%char]).
  by rewrite is_ws_space.
Qed.

Lemma trim_prepend_space (s : string) : JS.trim (" " +:+ s) = JS.trim s.
Proof.
  unfold JS.trim, JS.trimStart. f_equal.
Qed.

Lemma trim_fixed (s : string) : JS.no_outer_ws s → JS.trim s = s.
Proof.
  intros [Hfirst Hlast]. unfold JS.trim, JS.trimEnd.
  rewrite bytes_trimStart, (strip_fixed _ _ Hfirst), (strip_fixed _ _ Hlast).
  rewrite reverse_involutive. apply string_of_list_ascii_of_string.
Qed.

Lemma trim_no_outer_ws (s : string) : JS.no_outer_ws (JS.trim s).
Proof.
  unfold JS.no_outer_ws, JS.trim, JS.trimEnd.
  rewrite list_ascii_of_string_of_list_ascii, bytes_trimStart.
  set (t := JS.strip JS.is_ws (list_ascii_of_string s)).
  split.
  - destruct (JS.starts_with JS.is_ws (reverse (JS.strip JS.is_ws_rev (reverse t))))
      eqn:Hstart; [|done].
    apply (starts_with_prefix _ _ t) in Hstart.
    + unfold t in Hstart. by rewrite strip_starts in Hstart.
    + rewrite <- (reverse_involutive t) at 2.
      apply (proj1 (suffix_prefix_reverse _ _)). apply strip_suffix.
  - rewrite reverse_involutive. apply strip_starts.
Qed.

(** C10. The display name is the first name, one space and the last name,
    trimmed, an absent part counting as the empty string: it is empty when
    both parts are absent or the side table has no entry, it is the one part
    that is present, trimmed, when the other is absent (the part itself when
    that has no white space at its ends), and it never starts or ends with
    white space.  White space is what [String.prototype.trim] removes: the
    code points of WhiteSpace and LineTerminator, not only the space. *)
Theorem display_name_trimmed_join (userObj : option UserObj) :
  let first := JS.or_empty (userObj ≫= u_firstName) in
  let last := JS.or_empty (userObj ≫= u_lastName) in
  name_of userObj = JS.trim (first +:+ " " +:+ last) ∧
  (userObj = None → name_of userObj = JS.empty_str) ∧
  (first = JS.empty_str → last = JS.empty_str → name_of userObj = JS.empty_str) ∧
  (last = JS.empty_str → name_of userObj = JS.trim first) ∧
  (first = JS.empty_str → name_of userObj = JS.trim last) ∧
  (last = JS.empty_str → JS.no_outer_ws first → name_of userObj = first) ∧
  (first = JS.empty_str → JS.no_outer_ws last → name_of userObj = last) ∧
  JS.no_outer_ws (name_of userObj).
Proof.
  intros first last.
  assert (Hlast : last = JS.empty_str → name_of userObj = JS.trim first).
  { intros Hl. unfold name_of. fold first last. rewrite Hl.
    apply trim_append_space. }
  assert (Hfirst : first = JS.empty_str → name_of userObj = JS.trim last).
  { intros Hf. unfold name_of. fold first last. rewrite Hf.
    apply trim_prepend_space. }
  split_and!.
  - done.
  - by intros ->.
  - intros Hf Hl. rewrite (Hlast Hl), Hf. done.
  - done.
  - done.
  - intros Hl Hn. rewrite (Hlast Hl). by apply trim_fixed.
  - intros Hf Hn. rewrite (Hfirst Hf). by apply trim_fixed.
  - apply trim_no_outer_ws.
Qed.

(** ** Merge steps *)

Lemma user_id_of_Some (it : Item) (k : string) :
  user_id_of it = Some k ↔ i_user_id it = Some k ∧ k ≠ JS.empty_str.
Proof.
  unfold user_id_of, JS.empty_str.
  destruct (i_user_id it) as [[|c s]|]; simpl; split; intros H.
  all: try done.
  - destruct H as [[= <-] Hk]. by destruct Hk.
  - injection H as <-. by split.
  - by destruct H as [? _].
  - by destruct H as [[=] _].
Qed.

Lemma user_id_of_None (it : Item) :
  user_id_of it = None ↔ JS.truthy (i_user_id it) = false.
Proof.
  unfold user_id_of. destruct (i_user_id it) as [[|c s]|]; simpl; split; done.
Qed.

Lemma org_step_unfold U m it :
  org_step U m it =
  match user_id_of it with
  | Some k => alter (with_orgRoles (getRoleNames it)) k
                (ensure_record k (email_of (U !! k)) (name_of (U !! k)) m)
  | None => m
  end.
Proof. unfold org_step, user_id_of. by destruct (i_user_id it) as [[|c s]|]. Qed.

Lemma space_step_unfold U m it :
  space_step U m it =
  match user_id_of it with
  | Some k => alter (with_spaceRoles (getRoleNames it)) k
                (ensure_record k (email_of (U !! k)) (name_of (U !! k)) m)
  | None => m
  end.
Proof. unfold space_step, user_id_of. by destruct (i_user_id it) as [[|c s]|]. Qed.

Lemma team_member_step_unfold tn (utt : gmap string (list (option string))) it :
  team_member_step tn utt it =
  match user_id_of it with
  | Some k => <[k := default [] (utt !! k) ++ [tn]]> utt
  | None => utt
  end.
Proof.
  unfold team_member_step, user_id_of.
  destruct (i_user_id it) as [[|c s]|]; simpl; try done.
  apply map_eq. intros j. destruct (decide (String c s = j)) as [<-|Hne].
  - rewrite lookup_insert_eq.
    destruct (utt !! String c s) as [l|] eqn:Hk; rewrite lookup_alter_eq.
    + by rewrite Hk.
    + by rewrite lookup_insert_eq.
  - rewrite lookup_insert_ne by done.
    destruct (utt !! String c s) as [l|] eqn:Hk; rewrite lookup_alter_ne by done.
    + done.
    + by rewrite lookup_insert_ne.
Qed.

(** Look-up or create, then update: the record under [k] is the updated
    old record, or the updated fresh one, and no other key is touched. *)
Lemma lookup_alter_ensure f k e n (m : gmap string UserRecord) j :
  alter f k (ensure_record k e n m) !! j =
  if decide (k = j) then Some (f (default (new_record k e n) (m !! k)))
  else m !! j.
Proof.
  unfold ensure_record. rewrite lookup_alter. case_decide; subst.
  - destruct (m !! j) as [r|] eqn:Hj; simpl; [by rewrite Hj|].
    by rewrite lookup_insert_eq.
  - destruct (m !! k) as [r|] eqn:Hk; [done|]. by rewrite lookup_insert_ne.
Qed.

Lemma with_orgRoles_updates names : updates_lists (with_orgRoles names).
Proof.
  intros r. split; [done|]. intros (Ho & Hs & Ht). split.
  - split_and!; simpl; [apply NoDup_new_Set|done|done].
  - split_and!; simpl; try done.
    rewrite new_Set_union by done. by apply prefix_app_r.
Qed.

Lemma with_spaceRoles_updates names : updates_lists (with_spaceRoles names).
Proof.
  intros r. split; [done|]. intros (Ho & Hs & Ht). split.
  - split_and!; simpl; [done|apply NoDup_new_Set|done].
  - split_and!; simpl; try done.
    rewrite new_Set_union by done. by apply prefix_app_r.
Qed.

Lemma with_teams_updates names : updates_lists (with_teams names).
Proof.
  intros r. split; [done|]. intros (Ho & Hs & Ht). split.
  - split_and!; simpl; [done|done|apply NoDup_new_Set].
  - split_and!; simpl; try done.
    rewrite new_Set_union by done. by apply prefix_app_r.
Qed.

Section Upsert.
Context (f : UserRecord → UserRecord) (Hf : updates_lists f).
Context (k e n : string).
Implicit Types m : gmap string UserRecord.

Lemma upsert_keeps m : userMap_keeps m (alter f k (ensure_record k e n m)).
Proof.
  intros j r Hj. rewrite lookup_alter_ensure. case_decide; subst.
  - rewrite Hj. simpl. eexists. split; [done|]. apply (proj1 (Hf r)).
  - by exists r.
Qed.

Lemma upsert_inv m : userMap_inv m → userMap_inv (alter f k (ensure_record k e n m)).
Proof.
  intros Hinv j r. rewrite lookup_alter_ensure. case_decide; subst.
  - intros [= <-]. destruct (m !! j) as [r0|] eqn:Hj; simpl.
    + destruct (Hinv _ _ Hj) as [Hid Hnd]. destruct (Hf r0) as [(Hu & _ & _) Hd].
      split; [congruence|]. by apply Hd.
    + assert (Hnew : record_dedup (new_record j e n)).
      { repeat split; constructor. }
      destruct (Hf (new_record j e n)) as [(Hu & _ & _) Hd].
      split; [done|]. by apply Hd.
  - apply Hinv.
Qed.

Lemma upsert_extends m :
  userMap_inv m → userMap_extends m (alter f k (ensure_record k e n m)).
Proof.
  intros Hinv j r Hj. rewrite lookup_alter_ensure. case_decide; subst.
  - rewrite Hj. simpl. eexists. split; [done|].
    apply (proj2 (Hf r)). by apply (Hinv _ _ Hj).
  - exists r. split; [done|]. by repeat split.
Qed.

Lemma upsert_created m r :
  m !! k = None → alter f k (ensure_record k e n m) !! k = Some r →
  userId r = k ∧ email r = e ∧ name r = n.
Proof.
  intros Hnone. rewrite lookup_alter_ensure, decide_True by done.
  rewrite Hnone. simpl. intros [= <-]. by destruct (Hf (new_record k e n)) as [(? & ? & ?) _].
Qed.

End Upsert.

Lemma same_identity_refl r : same_identity r r.
Proof. done. Qed.

Lemma same_identity_trans r1 r2 r3 :
  same_identity r1 r2 → same_identity r2 r3 → same_identity r1 r3.
Proof. intros (? & ? & ?) (? & ? & ?). repeat split; congruence. Qed.

Lemma record_extends_refl r : record_extends r r.
Proof. by repeat split. Qed.

Lemma record_extends_trans r1 r2 r3 :
  record_extends r1 r2 → record_extends r2 r3 → record_extends r1 r3.
Proof.
  intros (Hi & ? & ? & ?) (Hi' & ? & ? & ?).
  split; [by eapply same_identity_trans|]. split_and!; by etrans.
Qed.

Lemma userMap_keeps_refl m : userMap_keeps m m.
Proof. intros k r Hk. by exists r. Qed.

Lemma userMap_keeps_trans m1 m2 m3 :
  userMap_keeps m1 m2 → userMap_keeps m2 m3 → userMap_keeps m1 m3.
Proof.
  intros H12 H23 k r Hk. destruct (H12 _ _ Hk) as (r2 & Hk2 & Hi).
  destruct (H23 _ _ Hk2) as (r3 & Hk3 & Hi'). exists r3.
  split; [done|]. by eapply same_identity_trans.
Qed.

Lemma userMap_extends_refl m : userMap_extends m m.
Proof. intros k r Hk. exists r. split; [done|apply record_extends_refl]. Qed.

Lemma userMap_extends_trans m1 m2 m3 :
  userMap_extends m1 m2 → userMap_extends m2 m3 → userMap_extends m1 m3.
Proof.
  intros H12 H23 k r Hk. destruct (H12 _ _ Hk) as (r2 & Hk2 & Hi).
  destruct (H23 _ _ Hk2) as (r3 & Hk3 & Hi'). exists r3.
  split; [done|]. by eapply record_extends_trans.
Qed.

(** The three loop bodies, one at a time. *)
Lemma org_step_keeps U m it : userMap_keeps m (org_step U m it).
Proof.
  rewrite org_step_unfold. destruct (user_id_of it);
    [apply upsert_keeps, with_orgRoles_updates|apply userMap_keeps_refl].
Qed.

Lemma space_step_keeps U m it : userMap_keeps m (space_step U m it).
Proof.
  rewrite space_step_unfold. destruct (user_id_of it);
    [apply upsert_keeps, with_spaceRoles_updates|apply userMap_keeps_refl].
Qed.

Lemma team_step_keeps m entry : userMap_keeps m (team_step m entry).
Proof. destruct entry as [k ts]. apply upsert_keeps, with_teams_updates. Qed.

Lemma org_step_inv U m it :
  userMap_inv m → userMap_inv (org_step U m it) ∧ userMap_extends m (org_step U m it).
Proof.
  rewrite org_step_unfold. destruct (user_id_of it); intros Hinv.
  - split; [apply upsert_inv|apply upsert_extends]; auto using with_orgRoles_updates.
  - split; [done|apply userMap_extends_refl].
Qed.

Lemma space_step_inv U m it :
  userMap_inv m →
  userMap_inv (space_step U m it) ∧ userMap_extends m (space_step U m it).
Proof.
  rewrite space_step_unfold. destruct (user_id_of it); intros Hinv.
  - split; [apply upsert_inv|apply upsert_extends]; auto using with_spaceRoles_updates.
  - split; [done|apply userMap_extends_refl].
Qed.

Lemma team_step_inv m entry :
  userMap_inv m → userMap_inv (team_step m entry) ∧ userMap_extends m (team_step m entry).
Proof.
  destruct entry as [k ts]. intros Hinv.
  split; [apply upsert_inv|apply upsert_extends]; auto using with_teams_updates.
Qed.

(** Lifting a step property to a whole loop. *)
Lemma foldl_keeps {X} (step : gmap string UserRecord → X → gmap string UserRecord) :
  (∀ m x, userMap_keeps m (step m x)) →
  ∀ l m, userMap_keeps m (foldl step m l).
Proof.
  intros Hstep l. induction l as [|x l IH]; intros m; simpl.
  - apply userMap_keeps_refl.
  - eapply userMap_keeps_trans; [apply Hstep|apply IH].
Qed.

Lemma foldl_inv {X} (step : gmap string UserRecord → X → gmap string UserRecord) :
  (∀ m x, userMap_inv m → userMap_inv (step m x) ∧ userMap_extends m (step m x)) →
  ∀ l m, userMap_inv m →
         userMap_inv (foldl step m l) ∧ userMap_extends m (foldl step m l).
Proof.
  intros Hstep l. induction l as [|x l IH]; intros m Hinv; simpl.
  - split; [done|apply userMap_extends_refl].
  - destruct (Hstep m x Hinv) as [Hinv' Hext].
    destruct (IH _ Hinv') as [Hinv'' Hext'].
    split; [done|]. by eapply userMap_extends_trans.
Qed.

Lemma userMap_inv_empty : userMap_inv ∅.
Proof. intros k r. by rewrite lookup_empty. Qed.

(** ** Which identifiers have a record *)

Lemma is_Some_alter_ensure f k e n (m : gmap string UserRecord) j :
  is_Some (alter f k (ensure_record k e n m) !! j) ↔ k = j ∨ is_Some (m !! j).
Proof.
  rewrite lookup_alter_ensure. case_decide; subst.
  - split; [by left|by eexists].
  - split; [by right|]. by intros [?|?].
Qed.

Lemma elem_of_user_ids_cons it items k :
  k ∈ user_ids (it :: items) ↔ user_id_of it = Some k ∨ k ∈ user_ids items.
Proof.
  unfold user_ids. simpl. destruct (user_id_of it) as [j|].
  - rewrite elem_of_cons. split; intros [H|H]; auto; left; congruence.
  - split; [by right|]. by intros [?|?].
Qed.

Lemma merge_org_is_Some U items m k :
  is_Some (foldl (org_step U) m items !! k) ↔ is_Some (m !! k) ∨ k ∈ user_ids items.
Proof.
  revert m. induction items as [|it items IH]; intros m.
  - simpl. split; [by left|]. intros [?|H]; [done|]. by apply elem_of_nil in H.
  - rewrite elem_of_user_ids_cons. simpl. rewrite IH, org_step_unfold.
    destruct (user_id_of it) as [j|].
    + rewrite is_Some_alter_ensure. split.
      * intros [[->|?]|?]; auto.
      * intros [?|[[= ->]|?]]; auto.
    + split; [intros [?|?]; auto|]. intros [?|[?|?]]; auto. done.
Qed.

Lemma merge_space_is_Some U items m k :
  is_Some (foldl (space_step U) m items !! k) ↔ is_Some (m !! k) ∨ k ∈ user_ids items.
Proof.
  revert m. induction items as [|it items IH]; intros m.
  - simpl. split; [by left|]. intros [?|H]; [done|]. by apply elem_of_nil in H.
  - rewrite elem_of_user_ids_cons. simpl. rewrite IH, space_step_unfold.
    destruct (user_id_of it) as [j|].
    + rewrite is_Some_alter_ensure. split.
      * intros [[->|?]|?]; auto.
      * intros [?|[[= ->]|?]]; auto.
    + split; [intros [?|?]; auto|]. intros [?|[?|?]]; auto. done.
Qed.

Lemma merge_entries_is_Some (entries : list (string * list (option string))) m k :
  is_Some (foldl team_step m entries !! k) ↔ is_Some (m !! k) ∨ k ∈ entries.*1.
Proof.
  revert m. induction entries as [|[j ts] entries IH]; intros m; simpl.
  - split; [by left|]. intros [?|H]; [done|]. by apply elem_of_nil in H.
  - rewrite IH, is_Some_alter_ensure, elem_of_cons. split.
    + intros [[->|?]|?]; auto.
    + intros [?|[->|?]]; auto.
Qed.

Lemma merge_teams_is_Some (userToTeams : gmap string (list (option string))) m k :
  is_Some (merge_teams userToTeams m !! k) ↔
  is_Some (m !! k) ∨ is_Some (userToTeams !! k).
Proof.
  unfold merge_teams, Object_entries. rewrite merge_entries_is_Some.
  apply or_iff_compat_l. rewrite list_elem_of_fmap. split.
  - intros ([j ts] & -> & Hin). apply elem_of_map_to_list in Hin. by eexists.
  - intros [ts Hts]. exists (k, ts). split; [done|]. by apply elem_of_map_to_list.
Qed.

(** The keys of [userToTeams] are the identifiers its memberships resolve
    to. *)
Lemma team_members_is_Some teamName items
    (userToTeams : gmap string (list (option string))) k :
  is_Some (foldl (team_member_step teamName) userToTeams items !! k) ↔
  is_Some (userToTeams !! k) ∨ k ∈ user_ids items.
Proof.
  revert userToTeams. induction items as [|it items IH]; intros utt.
  - simpl. split; [by left|]. intros [?|H]; [done|]. by apply elem_of_nil in H.
  - rewrite elem_of_user_ids_cons. simpl. rewrite IH, team_member_step_unfold.
    destruct (user_id_of it) as [j|].
    + rewrite lookup_insert. case_decide; subst.
      * split; [intros _; right; by left|intros _; left; by eexists].
      * split; [intros [?|?]; auto|]. intros [?|[[= ->]|?]]; auto. done.
    + split; [intros [?|?]; auto|]. intros [?|[?|?]]; auto. done.
Qed.

Lemma aggregate_is_Some org space userToTeams k :
  is_Some (aggregate org space userToTeams !! k) ↔
  k ∈ user_ids (allItems org) ∨ k ∈ user_ids (allItems space) ∨
  is_Some (userToTeams !! k).
Proof.
  unfold aggregate, merge_space, merge_org.
  rewrite merge_teams_is_Some, merge_space_is_Some, merge_org_is_Some.
  rewrite lookup_empty. split.
  - intros [[[H|?]|?]|?]; auto. by destruct H.
  - intros [?|[?|?]]; auto.
Qed.

Lemma aggregate_inv org space userToTeams :
  userMap_inv (aggregate org space userToTeams).
Proof.
  unfold aggregate, merge_teams, merge_space, merge_org.
  apply foldl_inv; [apply team_step_inv|].
  apply foldl_inv; [apply space_step_inv|].
  apply foldl_inv; [apply org_step_inv|].
  apply userMap_inv_empty.
Qed.

(** The identifier a membership loop creates a record for gets the email
    and the name of that loop's side table. *)
Lemma merge_org_created U items m k :
  k ∈ user_ids items → m !! k = None →
  ∃ r, foldl (org_step U) m items !! k = Some r ∧
       userId r = k ∧ email r = email_of (U !! k) ∧ name r = name_of (U !! k).
Proof.
  revert m. induction items as [|it items IH]; intros m Hin Hnone.
  - by apply elem_of_nil in Hin.
  - simpl. apply elem_of_user_ids_cons in Hin.
    destruct (decide (user_id_of it = Some k)) as [Hk|Hk].
    + pose proof (foldl_keeps (org_step U) (org_step_keeps U) items (org_step U m it)) as Hkeep.
      assert (Hnew : ∃ r0, org_step U m it !! k = Some r0 ∧ userId r0 = k ∧
                           email r0 = email_of (U !! k) ∧ name r0 = name_of (U !! k)).
      { rewrite org_step_unfold, Hk. rewrite lookup_alter_ensure, decide_True by done.
        rewrite Hnone. eexists. split; [done|]. done. }
      destruct Hnew as (r0 & Hr0 & Hid & He & Hn).
      destruct (Hkeep _ _ Hr0) as (r & Hr & Hid' & He' & Hn').
      exists r. split; [done|]. split_and!; congruence.
    + apply IH; [by destruct Hin|].
      rewrite org_step_unfold. destruct (user_id_of it) as [j|]; [|done].
      rewrite lookup_alter_ensure, decide_False; [done|congruence].
Qed.

Lemma merge_space_created U items m k :
  k ∈ user_ids items → m !! k = None →
  ∃ r, foldl (space_step U) m items !! k = Some r ∧
       userId r = k ∧ email r = email_of (U !! k) ∧ name r = name_of (U !! k).
Proof.
  revert m. induction items as [|it items IH]; intros m Hin Hnone.
  - by apply elem_of_nil in Hin.
  - simpl. apply elem_of_user_ids_cons in Hin.
    destruct (decide (user_id_of it = Some k)) as [Hk|Hk].
    + pose proof (foldl_keeps (space_step U) (space_step_keeps U) items
                    (space_step U m it)) as Hkeep.
      assert (Hnew : ∃ r0, space_step U m it !! k = Some r0 ∧ userId r0 = k ∧
                           email r0 = email_of (U !! k) ∧ name r0 = name_of (U !! k)).
      { rewrite space_step_unfold, Hk. rewrite lookup_alter_ensure, decide_True by done.
        rewrite Hnone. eexists. split; [done|]. done. }
      destruct Hnew as (r0 & Hr0 & Hid & He & Hn).
      destruct (Hkeep _ _ Hr0) as (r & Hr & Hid' & He' & Hn').
      exists r. split; [done|]. split_and!; congruence.
    + apply IH; [by destruct Hin|].
      rewrite space_step_unfold. destruct (user_id_of it) as [j|]; [|done].
      rewrite lookup_alter_ensure, decide_False; [done|congruence].
Qed.

(** ** Identity fields: first writer wins *)

(** C6. Once [userMap] holds a record for an identifier, no loop body and
    no pass changes its [userId], [email] or [name]: every step keeps the
    record and its identity fields, whatever the item, the side table or the
    team entry.  The fields are written when the record is created: a record
    made by a membership pass carries the email and name of that pass's side
    table, and one made by the team pass carries empty strings. *)
Theorem identity_fields_set_once (m : gmap string UserRecord) (k : string)
    (r : UserRecord) (Hk : m !! k = Some r) :
  (∀ U it, ∃ r', org_step U m it !! k = Some r' ∧ same_identity r r') ∧
  (∀ U it, ∃ r', space_step U m it !! k = Some r' ∧ same_identity r r') ∧
  (∀ entry, ∃ r', team_step m entry !! k = Some r' ∧ same_identity r r') ∧
  (∀ org, ∃ r', merge_org org m !! k = Some r' ∧ same_identity r r') ∧
  (∀ space, ∃ r', merge_space space m !! k = Some r' ∧ same_identity r r') ∧
  (∀ userToTeams, ∃ r', merge_teams userToTeams m !! k = Some r' ∧ same_identity r r') ∧
  (∀ m0 U it r0, m0 !! k = None → org_step U m0 it !! k = Some r0 →
     email r0 = email_of (U !! k) ∧ name r0 = name_of (U !! k)) ∧
  (∀ m0 U it r0, m0 !! k = None → space_step U m0 it !! k = Some r0 →
     email r0 = email_of (U !! k) ∧ name r0 = name_of (U !! k)) ∧
  (∀ m0 ts r0, m0 !! k = None → team_step m0 (k, ts) !! k = Some r0 →
     email r0 = JS.empty_str ∧ name r0 = JS.empty_str).
Proof.
  split_and!.
  - intros U it. by apply org_step_keeps.
  - intros U it. by apply space_step_keeps.
  - intros entry. by apply team_step_keeps.
  - intros org. by apply (foldl_keeps _ (org_step_keeps _)).
  - intros space. by apply (foldl_keeps _ (space_step_keeps _)).
  - intros utt. by apply (foldl_keeps _ team_step_keeps).
  - intros m0 U it r0 Hnone. rewrite org_step_unfold.
    destruct (user_id_of it) as [j|]; [|congruence].
    rewrite lookup_alter_ensure. case_decide; [subst|congruence].
    rewrite Hnone. by intros [= <-].
  - intros m0 U it r0 Hnone. rewrite space_step_unfold.
    destruct (user_id_of it) as [j|]; [|congruence].
    rewrite lookup_alter_ensure. case_decide; [subst|congruence].
    rewrite Hnone. by intros [= <-].
  - intros m0 ts r0 Hnone. unfold team_step.
    rewrite lookup_alter_ensure, decide_True by done.
    rewrite Hnone. by intros [= <-].
Qed.

(** ** The invariant of the unified map *)


(** The merged list is the old one followed by the new values it lacks,
    each at its first occurrence. *)
Lemma with_orgRoles_order names r :
  NoDup (orgRoles r) →
  orgRoles (with_orgRoles names r) =
  orgRoles r ++ filter (λ y, y ∉ orgRoles r) (JS.dedup_first names).
Proof. intros Hnd. simpl. by apply new_Set_union. Qed.

Lemma with_spaceRoles_order names r :
  NoDup (spaceRoles r) →
  spaceRoles (with_spaceRoles names r) =
  spaceRoles r ++ filter (λ y, y ∉ spaceRoles r) (JS.dedup_first names).
Proof. intros Hnd. simpl. by apply new_Set_union. Qed.

Lemma with_teams_order names r :
  NoDup (teams r) →
  teams (with_teams names r) =
  teams r ++ filter (λ y, y ∉ teams r) (JS.dedup_first names).
Proof. intros Hnd. simpl. by apply new_Set_union. Qed.

(** Merging the same names twice is the same as merging them once. *)
Lemma with_orgRoles_twice names r :
  with_orgRoles names (with_orgRoles names r) = with_orgRoles names r.
Proof. unfold with_orgRoles. simpl. f_equal. apply new_Set_union_twice. Qed.

(** ** First encounter wins, also for empty values *)

(** C9. When the organization pass meets an identifier that its side table
    does not hold, the record is created with an empty email and an empty
    name, and they stay empty in the final map and in the output row,
    whatever the space pass and its side table hold for that identifier. *)
Theorem empty_identity_stays_empty (org space : FetchResult)
    (userToTeams : gmap string (list (option string))) (k : string)
    (Hmet : k ∈ user_ids (allItems org))
    (Habsent : allUsers org !! k = None) :
  ∃ r, aggregate org space userToTeams !! k = Some r ∧
       email r = JS.empty_str ∧ name r = JS.empty_str ∧
       to_row r ∈ finalData (aggregate org space userToTeams) ∧
       row_userId (to_row r) = k ∧
       row_email (to_row r) = JS.empty_str ∧
       row_name (to_row r) = JS.empty_str.
Proof.
  destruct (merge_org_created (allUsers org) (allItems org) ∅ k Hmet)
    as (r1 & Hr1 & Hid1 & He1 & Hn1); [apply lookup_empty|].
  rewrite Habsent in He1, Hn1.
  destruct (foldl_keeps _ (space_step_keeps (allUsers space)) (allItems space)
              _ _ _ Hr1) as (r2 & Hr2 & Hid2 & He2 & Hn2).
  destruct (foldl_keeps _ team_step_keeps (Object_entries userToTeams)
              _ _ _ Hr2) as (r3 & Hr3 & Hid3 & He3 & Hn3).
  exists r3. split; [exact Hr3|].
  assert (He : email r3 = JS.empty_str) by (rewrite He3, He2, He1; done).
  assert (Hn : name r3 = JS.empty_str) by (rewrite Hn3, Hn2, Hn1; done).
  split_and!; simpl; try done.
  - unfold finalData, Object_values. apply list_elem_of_fmap_2.
    apply list_elem_of_fmap. exists (k, r3). split; [done|].
    by apply elem_of_map_to_list.
  - congruence.
Qed.

(** ** The output table *)

Lemma finalData_userIds (m : gmap string UserRecord) :
  userMap_inv m → row_userId <$> finalData m = (map_to_list m).*1.
Proof.
  intros Hinv. unfold finalData, Object_values.
  rewrite <- !list_fmap_compose. apply list_fmap_ext. intros i [k r] Hin.
  apply list_elem_of_lookup_2, elem_of_map_to_list in Hin. simpl.
  by destruct (Hinv _ _ Hin).
Qed.

Lemma string_app_assoc (a b c : string) : (a +:+ b) +:+ c = a +:+ b +:+ c.
Proof.
  induction a as [|x a IH]; [done|].
  change (String x ((a +:+ b) +:+ c) = String x (a +:+ b +:+ c)). by f_equal.
Qed.

Lemma string_length_app (a b : string) :
  String.length (a +:+ b) = (String.length a + String.length b)%nat.
Proof.
  induction a as [|x a IH]; [done|].
  change (S (String.length (a +:+ b)) = S (String.length a + String.length b)).
  by f_equal.
Qed.

Lemma foldl_sep_prefix (sep p q : string) (more : list string) :
  foldl (λ acc next, acc +:+ sep +:+ next) (p +:+ q) more =
  p +:+ foldl (λ acc next, acc +:+ sep +:+ next) q more.
Proof.
  revert q. induction more as [|y more IH]; intros q; [done|].
  cbn [foldl]. by rewrite string_app_assoc, IH.
Qed.

(** [join] builds what the reference definition describes. *)
Lemma join_joined_with (sep : string) (names : list string) :
  JS.join sep names = joined_with sep names.
Proof.
  destruct names as [|x more]; [done|]. unfold joined_with.
  revert x. induction more as [|y more IH]; intros x; [done|].
  change (JS.join sep (x :: y :: more)) with (x +:+ sep +:+ JS.join sep (y :: more)).
  rewrite IH. cbn [foldl]. by rewrite <- !foldl_sep_prefix.
Qed.

(** [join] agrees with the library's [String.concat]. *)
Lemma join_concat (sep : string) (names : list string) :
  JS.join sep names = String.concat sep names.
Proof.
  induction names as [|x [|y more] IH]; [done|done|].
  change (JS.join sep (x :: y :: more)) with (x +:+ sep +:+ JS.join sep (y :: more)).
  by rewrite IH.
Qed.

(** Every name is there in full and between two names stands one
    separator. *)
Lemma length_join (sep : string) (names : list string) :
  String.length (JS.join sep names) =
  (sum_list (String.length <$> names) + String.length sep * pred (length names))%nat.
Proof.
  induction names as [|x [|y more] IH]; [simpl; lia|simpl; lia|].
  change (JS.join sep (x :: y :: more)) with (x +:+ sep +:+ JS.join sep (y :: more)).
  rewrite !string_length_app, IH. simpl. lia.
Qed.

(** C8. The table made from the final map has the header
    userId, email, name, orgRoles, spaceRoles, teams; its data rows are the
    records of the map, each with exactly six cells; the first column holds
    each identifier met in one of the three sources exactly once; and the
    three lists are joined with a semicolon and a space: each cell is the
    first name followed by each further name preceded by that separator (two
    names give the first, the separator and the second), so its length is
    that of the names plus two characters between neighbours. *)
Theorem one_row_per_user (org space : FetchResult)
    (userToTeams : gmap string (list (option string))) :
  let userMap := aggregate org space userToTeams in
  let csv := Parser_parse fields (finalData userMap) in
  t_header csv = ["userId"; "email"; "name"; "orgRoles"; "spaceRoles"; "teams"] ∧
  t_rows csv = cells_of <$> Object_values userMap ∧
  Forall (λ row, length row = 6%nat) (t_rows csv) ∧
  NoDup (row_userId <$> finalData userMap) ∧
  length (t_rows csv) = size userMap ∧
  (∀ k, k ∈ row_userId <$> finalData userMap ↔
        k ∈ user_ids (allItems org) ∨ k ∈ user_ids (allItems space) ∨
        is_Some (userToTeams !! k)) ∧
  t_rows csv = expected_cells <$> Object_values userMap ∧
  (∀ k u a b, userMap !! k = Some u → orgRoles u = [a; b] →
     [k; email u; name u; a +:+ "; " +:+ b;
      String.concat "; " (spaceRoles u);
      String.concat "; " (JS.or_empty <$> teams u)] ∈ t_rows csv) ∧
  (∀ u, u ∈ Object_values userMap →
     String.length (row_orgRoles (to_row u)) =
       (sum_list (String.length <$> orgRoles u) + 2 * pred (length (orgRoles u)))%nat ∧
     String.length (row_spaceRoles (to_row u)) =
       (sum_list (String.length <$> spaceRoles u)
        + 2 * pred (length (spaceRoles u)))%nat ∧
     String.length (row_teams (to_row u)) =
       (sum_list (String.length <$> (JS.or_empty <$> teams u))
        + 2 * pred (length (teams u)))%nat).
Proof.
  intros userMap csv.
  assert (Hrows : t_rows csv = cells_of <$> Object_values userMap).
  { unfold csv, Parser_parse, finalData. simpl.
    rewrite <- list_fmap_compose. by apply list_fmap_ext. }
  assert (Hexpected : t_rows csv = expected_cells <$> Object_values userMap).
  { rewrite Hrows. apply list_fmap_ext. intros i u _.
    unfold cells_of, expected_cells, JS.join_opt. by rewrite !join_joined_with. }
  pose proof (aggregate_inv org space userToTeams) as Hinv. fold userMap in Hinv.
  split_and!.
  - done.
  - done.
  - rewrite Hrows. apply Forall_fmap, Forall_true. done.
  - rewrite finalData_userIds by done. apply NoDup_fst_map_to_list.
  - rewrite Hrows. unfold Object_values. rewrite !length_fmap.
    apply length_map_to_list.
  - intros k. rewrite finalData_userIds by done.
    rewrite <- aggregate_is_Some. fold userMap.
    rewrite list_elem_of_fmap. split.
    + intros ([j r] & -> & Hin). apply elem_of_map_to_list in Hin. by eexists.
    + intros [r Hr]. exists (k, r). split; [done|]. by apply elem_of_map_to_list.
  - done.
  - intros k u a b Hu Horg. rewrite Hexpected. apply list_elem_of_fmap.
    exists u. split.
    + unfold expected_cells. rewrite Horg.
      rewrite <- (join_joined_with "; " (spaceRoles u)).
      rewrite <- (join_joined_with "; " (JS.or_empty <$> teams u)).
      destruct (Hinv k u Hu) as [-> _]. reflexivity.
    + unfold Object_values. apply list_elem_of_fmap. exists (k, u).
      split; [done|]. by apply elem_of_map_to_list.
  - intros u _. simpl. unfold JS.join_opt. by rewrite !length_join, length_fmap.
Qed.

(** ** The paginated fetch routine *)

Lemma pages_needed_spec (T : Z) :
  (1 ≤ pages_needed T)%Z ∧ (T ≤ limit * pages_needed T)%Z ∧
  (∀ j, (1 ≤ j < pages_needed T)%Z → (limit * j < T)%Z).
Proof.
  unfold pages_needed, limit. split_and!; [lia| |intros j Hj];
    Z.div_mod_to_equations; lia.
Qed.

Lemma allItems_foldl_add_page (pages : list Page) (acc : FetchResult) :
  allItems (foldl add_page acc pages) =
  allItems acc ++ concat ((λ p, default [] (p_items p)) <$> pages).
Proof.
  revert acc. induction pages as [|p pages IH]; intros acc; simpl.
  - by rewrite app_nil_r.
  - rewrite IH. simpl. by rewrite <- app_assoc.
Qed.

(** Cutting a collection into consecutive pages of [c] items and gluing
    the first [n] of them gives back its first [c * n] items. *)
Lemma concat_pages {A} (db : list A) (c n : nat) :
  concat ((λ k : nat, take c (drop (c * k) db)) <$> seq 0 n) = take (c * n) db.
Proof.
  induction n as [|n IH].
  - by rewrite Nat.mul_0_r.
  - rewrite seq_S, fmap_app, concat_app, IH. simpl. rewrite app_nil_r.
    rewrite take_take_drop. f_equal. lia.
Qed.

Section ScriptFacts.
Context {W : Type}.
Context (axios_get : Request → W → Result Page * W).
Context (writeFileSync : string → Table → W → Result unit * W).
Context (KEY ORG : string).

Local Abbreviation fetch := (fetchPagedDataWithIncludes axios_get KEY).
Local Abbreviation loop := (fetch_loop axios_get KEY).
Local Abbreviation request := (page_request KEY).
Local Abbreviation requests_from url inc j n :=
  ((λ k : nat, page_request KEY url inc (limit * Z.of_nat k)) <$> seq j n).

Lemma responses_app (r1 r2 : list Request) (w : W) :
  responses axios_get (r1 ++ r2) w =
  responses axios_get r1 w ++ responses axios_get r2 (world_after axios_get r1 w).
Proof.
  revert w. induction r1 as [|r r1 IH]; intros w; simpl; [done|]. by rewrite IH.
Qed.

Lemma world_after_app (r1 r2 : list Request) (w : W) :
  world_after axios_get (r1 ++ r2) w =
  world_after axios_get r2 (world_after axios_get r1 w).
Proof. revert w. induction r1 as [|r r1 IH]; intros w; simpl; [done|]. by rewrite IH. Qed.

Lemma length_responses (reqs : list Request) (w : W) :
  length (responses axios_get reqs w) = length reqs.
Proof. revert w. induction reqs as [|r reqs IH]; intros w; simpl; [done|]. by rewrite IH. Qed.

(** One round of the loop on a page that is not the last one. *)
Lemma loop_step_more fuel url inc skip acc w tr p :
  (axios_get (request url inc skip) w).1 = Ok p →
  (skip + limit < default 0 (p_total p))%Z →
  loop (S fuel) url inc skip acc (w, tr) =
  loop fuel url inc (skip + limit) (add_page acc p)
       ((axios_get (request url inc skip) w).2, tr ++ [Get (request url inc skip)]).
Proof.
  intros Hresp Hmore. simpl.
  destruct (axios_get (request url inc skip) w) as [resp w'] eqn:Hget.
  simpl in *. subst resp. rewrite bool_decide_eq_false_2 by lia. done.
Qed.

(** One round of the loop on the last page. *)
Lemma loop_step_last fuel url inc skip acc w tr p :
  (axios_get (request url inc skip) w).1 = Ok p →
  (default 0 (p_total p) ≤ skip + limit)%Z →
  loop (S fuel) url inc skip acc (w, tr) =
  Some (add_page acc p,
        ((axios_get (request url inc skip) w).2, tr ++ [Get (request url inc skip)])).
Proof.
  intros Hresp Hlast. simpl.
  destruct (axios_get (request url inc skip) w) as [resp w'] eqn:Hget.
  simpl in *. subst resp. rewrite bool_decide_eq_true_2 by lia. done.
Qed.

(** One round of the loop on a request that fails. *)
Lemma loop_step_fail fuel url inc skip acc w tr msg :
  (axios_get (request url inc skip) w).1 = Throw msg →
  loop (S fuel) url inc skip acc (w, tr) =
  Some (acc, ((axios_get (request url inc skip) w).2,
              tr ++ [Get (request url inc skip);
                     ConsoleError (fetch_warning url) msg])).
Proof.
  intros Hresp. simpl.
  destruct (axios_get (request url inc skip) w) as [resp w'] eqn:Hget.
  simpl in *. subst resp. unfold emit. simpl. by rewrite <- app_assoc.
Qed.

(** Fuel is only a cut-off: a call that returns does so with any larger
    amount of fuel, and with the same result. *)
Lemma loop_fuel_mono fuel extra url inc skip acc st x :
  loop fuel url inc skip acc st = Some x →
  loop (fuel + extra) url inc skip acc st = Some x.
Proof.
  revert skip acc st. induction fuel as [|fuel IH]; intros skip acc st; [done|].
  simpl. destruct (axios_get (request url inc skip) st.1) as [[p|msg] w']; [|done].
  case_bool_decide; [done|]. apply IH.
Qed.

(** A run of successful pages, none of them the last, only moves the loop
    forward. *)
Lemma loop_advance url inc (pages : list Page) :
  ∀ (j : nat) acc w tr fuel,
    responses axios_get (requests_from url inc j (length pages)) w = Ok <$> pages →
    (∀ (i : nat) p, pages !! i = Some p →
                    (limit * Z.of_nat (j + i + 1) < default 0 (p_total p))%Z) →
    loop (length pages + fuel) url inc (limit * Z.of_nat j) acc (w, tr) =
    loop fuel url inc (limit * Z.of_nat (j + length pages)) (foldl add_page acc pages)
         (world_after axios_get (requests_from url inc j (length pages)) w,
          tr ++ (Get <$> requests_from url inc j (length pages))).
Proof.
  induction pages as [|p pages IH]; intros j acc w tr fuel Hresp Hmore.
  - simpl. rewrite Nat.add_0_r, app_nil_r. done.
  - simpl in Hresp. injection Hresp as Hp Hrest.
    change (length (p :: pages) + fuel)%nat with (S (length pages + fuel)).
    rewrite (loop_step_more _ _ _ _ _ _ _ p Hp).
    2:{ specialize (Hmore 0%nat p eq_refl). unfold limit in *. lia. }
    replace (limit * Z.of_nat j + limit) with (limit * Z.of_nat (S j)) by lia.
    rewrite (IH (S j)); [|done|].
    2:{ intros i q Hq. specialize (Hmore (S i) q Hq).
        replace (S j + i + 1)%nat with (j + S i + 1)%nat by lia. done. }
    simpl. rewrite <- app_assoc. simpl.
    replace (S (j + length pages)) with (j + S (length pages))%nat by lia.
    done.
Qed.

Lemma responses_items (f : Request → list Item) (reqs : list Request) :
  (∀ w req, req ∈ reqs → items_of (axios_get req w).1 = f req) →
  ∀ w, items_of <$> responses axios_get reqs w = f <$> reqs.
Proof.
  induction reqs as [|r reqs IH]; intros Hf w; simpl; [done|].
  rewrite Hf by left. f_equal. apply IH. intros w' req Hin. apply Hf. by right.
Qed.

Lemma responses_all_ok (P : Page → Prop) (reqs : list Request) :
  (∀ w req, req ∈ reqs → ∃ p, (axios_get req w).1 = Ok p ∧ P p) →
  ∀ w, ∃ pages, responses axios_get reqs w = Ok <$> pages ∧
                length pages = length reqs ∧ Forall P pages.
Proof.
  induction reqs as [|r reqs IH]; intros Hok w; simpl.
  - by exists [].
  - destruct (Hok w r) as (p & Hp & HP); [by left|].
    destruct (IH (λ w' req Hin, Hok w' req (list_elem_of_further _ _ _ Hin))
                 (axios_get r w).2) as (pages & Hpages & Hlen & Hall).
    exists (p :: pages). simpl. rewrite Hp, Hpages, Hlen. by repeat constructor.
Qed.

Lemma elem_of_requests_from url inc j n req :
  req ∈ requests_from url inc j n →
  ∃ k : nat, req = request url inc (limit * Z.of_nat k).
Proof. intros (k & -> & _)%list_elem_of_fmap. by exists k. Qed.

(** C2. When every page request of a call is answered with the same total
    [T], the call ends, whenever the fuel allows [pages_needed T] rounds,
    after exactly [pages_needed T = max 1 (ceil (T / 100))] requests (the
    least [n >= 1] with [T <= 100 * n]) at the offsets 0, 100, 200, ... and
    returns the items of all pages in the order of the requests.  A total of 250 gives the three offsets 0, 100 and 200,
    a total of 0 gives one request, and against a server that serves a
    collection of [T] items page by page the result is that collection. *)
Theorem fetch_fixed_total (url inc : string) (T : Z) (w : W) (tr : list Event)
    (fuel : nat)
    (Hfixed : ∀ w' skip, ∃ p, (axios_get (request url inc skip) w').1 = Ok p ∧
                              default 0%Z (p_total p) = T)
    (Hfuel : (pages_needed T ≤ Z.of_nat fuel)%Z) :
  let n := Z.to_nat (pages_needed T) in
  let reqs := page_requests KEY url inc n in
  ∃ res,
    fetch fuel url inc (w, tr) =
      Some (res, (world_after axios_get reqs w, tr ++ (Get <$> reqs))) ∧
    length reqs = n ∧
    (1 ≤ n)%nat ∧ (T ≤ 100 * Z.of_nat n)%Z ∧
    (∀ j : nat, (1 ≤ j < n)%nat → (100 * Z.of_nat j < T)%Z) ∧
    req_skip <$> reqs = (λ k : nat, (100 * Z.of_nat k)%Z) <$> seq 0 n ∧
    allItems res = concat (items_of <$> responses axios_get reqs w) ∧
    (T = 250%Z → req_skip <$> reqs = [0; 100; 200]%Z) ∧
    (T = 0%Z → req_skip <$> reqs = [0%Z]) ∧
    (∀ db : list Item,
       T = Z.of_nat (length db) →
       (∀ w' skip p, (axios_get (request url inc skip) w').1 = Ok p →
                     default [] (p_items p) = take 100 (drop (Z.to_nat skip) db)) →
       allItems res = db).
Proof.
  intros n reqs.
  destruct (pages_needed_spec T) as (Hpos & Hcover & Hbefore).
  assert (Hn : ∃ n', n = S n') by (exists (Nat.pred n); lia).
  destruct Hn as [n' Hn'].
  assert (Hreqs : reqs = requests_from url inc 0 n' ++
                         [request url inc (limit * Z.of_nat n')]).
  { unfold reqs, page_requests. rewrite Hn', seq_S, fmap_app. done. }
  destruct (responses_all_ok (λ p, default 0%Z (p_total p) = T) reqs) with (w := w)
    as (pages & Hresp & Hlen & Htotal).
  { intros w' req Hin. apply elem_of_requests_from in Hin as [k ->]. apply Hfixed. }
  assert (Hlenreqs : length reqs = n).
  { unfold reqs, page_requests. by rewrite length_fmap, length_seq. }
  destruct (decide (pages = [])) as [->|Hne].
  { simpl in Hlen. lia. }
  destruct (exists_last Hne) as (pages' & plast & ->).
  rewrite length_app in Hlen. simpl in Hlen.
  assert (Hlen' : length pages' = n') by lia.
  rewrite Hreqs, responses_app, fmap_app in Hresp.
  apply app_inj_1 in Hresp as [Hresp' Hlast].
  2:{ by rewrite length_responses, !length_fmap, length_seq. }
  simpl in Hlast. injection Hlast as Hlast.
  apply Forall_app in Htotal as [Htotal' Htotal_last].
  apply (proj1 (Forall_singleton _ _)) in Htotal_last. simpl in Htotal_last.
  assert (Hres : fetch fuel url inc (w, tr) =
            Some (foldl add_page (mkFetchResult [] ∅) (pages' ++ [plast]),
                  (world_after axios_get reqs w, tr ++ (Get <$> reqs)))).
  { unfold fetchPagedDataWithIncludes.
    pose proof (loop_advance url inc pages' 0%nat (mkFetchResult [] ∅) w tr
                  (S (fuel - n))) as Hadv.
    rewrite Hlen' in Hadv.
    replace (n' + S (fuel - n))%nat with fuel in Hadv by lia.
    change (limit * Z.of_nat 0)%Z with 0%Z in Hadv.
    rewrite Hadv; [|done|].
    2:{ intros i p Hp. pose proof (Forall_lookup_1 _ _ _ _ Htotal' Hp) as Ht.
        simpl in Ht. rewrite Ht. apply lookup_lt_Some in Hp.
        replace (Z.of_nat (0 + i + 1)) with (Z.of_nat i + 1)%Z by lia.
        apply Hbefore. lia. }
    rewrite (loop_step_last _ _ _ _ _ _ _ plast); [|done|].
    2:{ rewrite Htotal_last. unfold limit in *. lia. }
    rewrite Hreqs, world_after_app, foldl_app, fmap_app. simpl.
    by rewrite <- app_assoc. }
  assert (Hskips : req_skip <$> reqs = (λ k : nat, (100 * Z.of_nat k)%Z) <$> seq 0 n).
  { unfold reqs, page_requests. by rewrite <- list_fmap_compose. }
  assert (Hitems : allItems (foldl add_page (mkFetchResult [] ∅) (pages' ++ [plast])) =
                   concat (items_of <$> responses axios_get reqs w)).
  { rewrite allItems_foldl_add_page. simpl. f_equal.
    rewrite Hreqs, responses_app, fmap_app, Hresp'. simpl. rewrite Hlast. simpl.
    rewrite fmap_app. simpl. f_equal. by rewrite <- list_fmap_compose. }
  eexists. split; [exact Hres|]. split_and!; try done.
  - lia.
  - unfold limit in *. lia.
  - intros j Hj. specialize (Hbefore (Z.of_nat j)). unfold limit in *. lia.
  - intros ->. rewrite Hskips. subst n. reflexivity.
  - intros ->. rewrite Hskips. subst n. reflexivity.
  - intros db HT Hserve. rewrite Hitems.
    rewrite (responses_items
               (λ req, take 100 (drop (Z.to_nat (req_skip req)) db))).
    2:{ intros w' req Hin. apply elem_of_requests_from in Hin as [k ->].
        destruct (Hfixed w' (limit * Z.of_nat k)%Z) as (p & Hp & _).
        rewrite Hp. simpl. by apply (Hserve w'). }
    unfold reqs, page_requests. rewrite <- list_fmap_compose.
    trans (take (100 * n) db); [|apply take_ge; unfold limit in *; lia].
    rewrite <- concat_pages. f_equal. apply list_fmap_ext. intros i k _.
    unfold compose. cbn [req_skip page_request]. do 2 f_equal. unfold limit. lia.
Qed.

(** ** A failing request *)

Lemma no_spaceRoles_upsert f k e n (m : gmap string UserRecord) :
  (∀ r, spaceRoles (f r) = spaceRoles r) →
  (∀ j r, m !! j = Some r → spaceRoles r = []) →
  ∀ j r, alter f k (ensure_record k e n m) !! j = Some r → spaceRoles r = [].
Proof.
  intros Hf Hm j r. rewrite lookup_alter_ensure. case_decide; subst.
  - intros [= <-]. rewrite Hf. destruct (m !! j) as [r0|] eqn:Hj; simpl; [|done].
    by apply (Hm j).
  - apply Hm.
Qed.

Lemma no_spaceRoles_without_space_pass org userToTeams :
  ∀ k r, merge_teams userToTeams (merge_org org ∅) !! k = Some r → spaceRoles r = [].
Proof.
  unfold merge_teams, merge_org.
  assert (Horg : ∀ items m,
            (∀ j r, m !! j = Some r → spaceRoles r = []) →
            ∀ j r, foldl (org_step (allUsers org)) m items !! j = Some r →
                   spaceRoles r = []).
  { induction items as [|it items IH]; intros m Hm; simpl; [done|].
    apply IH. rewrite org_step_unfold. destruct (user_id_of it); [|done].
    by apply no_spaceRoles_upsert. }
  assert (Hteams : ∀ (entries : list (string * list (option string))) m,
            (∀ j r, m !! j = Some r → spaceRoles r = []) →
            ∀ j r, foldl team_step m entries !! j = Some r → spaceRoles r = []).
  { induction entries as [|[j ts] entries IH]; intros m Hm; simpl; [done|].
    apply IH. by apply no_spaceRoles_upsert. }
  apply Hteams, Horg. intros j r. by rewrite lookup_empty.
Qed.

(** C3. When the requests of a call are answered by some pages, none of
    them the last, and then by a failure, the call issues no further request,
    logs one warning and returns, as an ordinary value, what the pages before
    the failure gave.  For the space memberships this means that the script
    goes on with the team pass and builds the final map from the organization
    result, the partial space result and the team result; when the very first
    space request fails the final map is the one the organization and team
    passes build, and no record has a space role. *)
Theorem fetch_failure_keeps_partial_result (url inc : string) (pages : list Page)
    (msg : string) (w : W) (tr : list Event) (fuel : nat)
    (Hresp : responses axios_get (page_requests KEY url inc (S (length pages))) w =
             (Ok <$> pages) ++ [Throw msg])
    (Hmore : ∀ (i : nat) p, pages !! i = Some p →
                (limit * Z.of_nat (i + 1) < default 0 (p_total p))%Z)
    (Hfuel : (length pages < fuel)%nat) :
  let reqs := page_requests KEY url inc (S (length pages)) in
  let partial := foldl add_page (mkFetchResult [] ∅) pages in
  let st2 := (world_after axios_get reqs w,
              tr ++ (Get <$> reqs) ++ [ConsoleError (fetch_warning url) msg]) in
  fetch fuel url inc (w, tr) = Some (partial, st2) ∧
  allItems partial = concat ((λ p, default [] (p_items p)) <$> pages) ∧
  (∀ st0 org userToTeams st3,
     url = space_url ORG → inc = "sys.user" →
     fetchOrganizationMemberships axios_get KEY ORG fuel st0 = Some (org, (w, tr)) →
     fetchTeamMemberships axios_get KEY ORG fuel st2 = Some (userToTeams, st3) →
     build_userMap axios_get KEY ORG fuel st0 =
       Some (aggregate org partial userToTeams, st3) ∧
     (pages = [] →
      aggregate org partial userToTeams = merge_teams userToTeams (merge_org org ∅) ∧
      ∀ k r, aggregate org partial userToTeams !! k = Some r → spaceRoles r = [])).
Proof.
  intros reqs partial st2.
  assert (Hreqs : reqs = requests_from url inc 0 (length pages) ++
                         [request url inc (limit * Z.of_nat (length pages))]).
  { unfold reqs, page_requests. rewrite seq_S, fmap_app. done. }
  fold reqs in Hresp. rewrite Hreqs, responses_app in Hresp.
  apply app_inj_1 in Hresp as [Hresp' Hlast].
  2:{ by rewrite length_responses, !length_fmap, length_seq. }
  simpl in Hlast. injection Hlast as Hlast.
  assert (Hres : fetch fuel url inc (w, tr) = Some (partial, st2)).
  { unfold fetchPagedDataWithIncludes.
    pose proof (loop_advance url inc pages 0%nat (mkFetchResult [] ∅) w tr
                  (S (fuel - S (length pages)))) as Hadv.
    replace (length pages + S (fuel - S (length pages)))%nat with fuel in Hadv by lia.
    change (limit * Z.of_nat 0)%Z with 0%Z in Hadv.
    rewrite Hadv; [|done|done].
    rewrite (loop_step_fail _ _ _ _ _ _ _ msg) by done.
    unfold st2, partial. rewrite Hreqs, world_after_app, fmap_app. simpl.
    by rewrite <- !app_assoc. }
  split_and!.
  - done.
  - unfold partial. by rewrite allItems_foldl_add_page.
  - intros st0 org utt st3 -> -> Horg Hteams. split.
    + unfold build_userMap, bind. rewrite Horg.
      unfold fetchSpaceMemberships. rewrite Hres, Hteams. done.
    + intros Hnil. assert (Hagg : aggregate org partial utt =
                                  merge_teams utt (merge_org org ∅)).
      { unfold aggregate, partial. by rewrite Hnil. }
      split; [done|]. rewrite Hagg. apply no_spaceRoles_without_space_pass.
Qed.

(** ** Items without an identifier *)

Lemma foldl_skip {A X} (step : A → X → A) (x : X) :
  (∀ a, step a x = a) →
  ∀ l1 l2 a, foldl step a (l1 ++ x :: l2) = foldl step a (l1 ++ l2).
Proof. intros Hx l1 l2 a. rewrite !foldl_app. simpl. by rewrite Hx. Qed.

(** C5. A membership whose user identifier is absent or empty changes
    nothing: the organization loop, the space loop and the team membership
    loop leave their maps as they are, and a list of items gives the same
    result with or without it, so the output rows are the same.  A team whose
    identifier is absent or empty is passed over without any request, and the
    loop over the teams behaves as if the team were not listed. *)
Theorem items_without_identifier_skipped (it team : Item)
    (Hit : JS.truthy (i_user_id it) = false)
    (Hteam : JS.truthy (i_sys_id team) = false) :
  (∀ U m, org_step U m it = m) ∧
  (∀ U m, space_step U m it = m) ∧
  (∀ teamName userToTeams, team_member_step teamName userToTeams it = userToTeams) ∧
  (∀ U m l1 l2, foldl (org_step U) m (l1 ++ it :: l2) = foldl (org_step U) m (l1 ++ l2)) ∧
  (∀ U m l1 l2,
     foldl (space_step U) m (l1 ++ it :: l2) = foldl (space_step U) m (l1 ++ l2)) ∧
  (∀ teamName userToTeams l1 l2,
     foldl (team_member_step teamName) userToTeams (l1 ++ it :: l2) =
     foldl (team_member_step teamName) userToTeams (l1 ++ l2)) ∧
  (∀ U1 U2 userToTeams l1 l2 k1 k2,
     finalData (aggregate (mkFetchResult (l1 ++ it :: l2) U1)
                          (mkFetchResult (k1 ++ it :: k2) U2) userToTeams) =
     finalData (aggregate (mkFetchResult (l1 ++ l2) U1)
                          (mkFetchResult (k1 ++ k2) U2) userToTeams)) ∧
  (∀ fuel userToTeams st l1 l2,
     team_loop axios_get KEY ORG fuel (l1 ++ team :: l2) userToTeams st =
     team_loop axios_get KEY ORG fuel (l1 ++ l2) userToTeams st).
Proof.
  apply user_id_of_None in Hit.
  assert (Horg : ∀ U m, org_step U m it = m).
  { intros U m. by rewrite org_step_unfold, Hit. }
  assert (Hspace : ∀ U m, space_step U m it = m).
  { intros U m. by rewrite space_step_unfold, Hit. }
  assert (Hmember : ∀ tn utt, team_member_step tn utt it = utt).
  { intros tn utt. by rewrite team_member_step_unfold, Hit. }
  split_and!; try done.
  - intros U m l1 l2. by apply foldl_skip.
  - intros U m l1 l2. by apply foldl_skip.
  - intros tn utt l1 l2. by apply foldl_skip.
  - intros U1 U2 utt l1 l2 k1 k2. unfold aggregate, merge_space, merge_org. simpl.
    by rewrite (foldl_skip _ it (Horg U1)), (foldl_skip _ it (Hspace U2)).
  - intros fuel utt st l1. revert utt st.
    induction l1 as [|t l1 IH]; intros utt st l2; simpl.
    + by destruct (i_sys_id team) as [[|c s]|].
    + destruct (i_sys_id t) as [[|c s]|]; try apply IH.
      unfold bind. destruct (fetch fuel _ _ st) as [[r st']|]; [apply IH|done].
Qed.

(** ** How the script ends *)

(** C1 (as amended). Once the three passes have returned, the script
    always settles normally and the exit status is zero, whether the write
    succeeds or throws: on success the file is written and the success
    message is logged; on failure the error is logged as a script error,
    the success message is not logged, the file system is left as the failed
    write left it (there is no cleanup), and the status is zero all the
    same. *)
Theorem main_settles_with_status_zero (fuel : nat) (st st1 : St)
    (userMap : gmap string UserRecord)
    (Hbuilt : build_userMap axios_get KEY ORG fuel st = Some (userMap, st1)) :
  let csv := Parser_parse fields (finalData userMap) in
  ∃ c st',
    main axios_get writeFileSync KEY ORG fuel st = Some (c, st') ∧
    exit_status c = 0%Z ∧
    st'.1 = (writeFileSync output_path csv st1.1).2 ∧
    st'.2 = st1.2 ++
            match (writeFileSync output_path csv st1.1).1 with
            | Ok _ => [FileWritten output_path csv; ConsoleLog success_message]
            | Throw message => [ConsoleError "Script error:" message]
            end.
Proof.
  intros csv. unfold main, try_block, bind. rewrite Hbuilt. fold csv.
  destruct (writeFileSync output_path csv st1.1) as [[[]|message] w'] eqn:Hwrite;
    simpl; eexists _, _; (split; [done|]); simpl; split_and!; try done.
  by rewrite <- app_assoc.
Qed.

End ScriptFacts.

(** * The properties on the sample worlds *)

Example end_to_end_rows :
  main (Sample.acme true) Sample.disk_ok "tok" "acme" 1 ((), []) =
  Some (Fulfilled,
        ((), (Get <$> [page_request "tok" (org_url "acme") "sys.user" 0;
                       page_request "tok" (space_url "acme") "sys.user" 0;
                       page_request "tok" (teams_url "acme") JS.empty_str 0;
                       page_request "tok" (team_memberships_url "acme" "T1")
                                    "sys.user,sys.organizationMembership" 0]) ++
             [FileWritten "contentful_users.csv"
                (mkTable fields
                   [["U1"; "ann@example.com"; "Ann Lee"; "Admin"; "Editor"; "Design"];
                    ["U2"; JS.empty_str; JS.empty_str; JS.empty_str; JS.empty_str;
                     "Design"]]);
              ConsoleLog success_message])).
Proof. vm_compute. reflexivity. Qed.

(** C1, the claim as stated fails: the disk is full, the write throws and
    the error is logged, yet the script settles normally and the exit status
    is zero. *)
Lemma write_failure_exits_zero :
  ∃ c st',
    main (Sample.acme true) Sample.disk_full "tok" "acme" 1 ((), []) = Some (c, st') ∧
    last st'.2 = Some (ConsoleError "Script error:"
                                    "ENOSPC: no space left on device, write") ∧
    ¬ (exit_status c ≠ 0%Z).
Proof.
  eexists _, _. split; [vm_compute; reflexivity|]. split.
  - reflexivity.
  - intros Hne. by apply Hne.
Qed.

Lemma main_settles_with_status_zero_witness :
  ∃ c st',
    main (Sample.acme true) Sample.disk_ok "tok" "acme" 1 ((), []) = Some (c, st') ∧
    exit_status c = 0%Z ∧
    last st'.2 = Some (ConsoleLog success_message).
Proof.
  destruct (build_userMap (Sample.acme true) "tok" "acme" 1 ((), []))
    as [[userMap st1]|] eqn:Hbuilt; [|by vm_compute in Hbuilt].
  destruct (main_settles_with_status_zero (Sample.acme true) Sample.disk_ok
              "tok" "acme" 1 ((), []) st1 userMap Hbuilt)
    as (c & st' & Hmain & Hexit & Hworld & Htrace).
  exists c, st'. split; [exact Hmain|]. split; [exact Hexit|].
  rewrite Htrace. simpl. by rewrite last_app.
Defined.

Lemma fetch_fixed_total_witness :
  ∃ res st',
    fetchPagedDataWithIncludes (Sample.paged (Sample.collection 250)) "tok" 3
      "https://api.contentful.com/organizations/acme/organization_memberships"
      "sys.user" ((), []) = Some (res, st') ∧
    req_skip <$> page_requests "tok"
      "https://api.contentful.com/organizations/acme/organization_memberships"
      "sys.user" (Z.to_nat (pages_needed 250)) = [0; 100; 200]%Z ∧
    length (allItems res) = 250%nat.
Proof.
  destruct (fetch_fixed_total (Sample.paged (Sample.collection 250)) "tok"
              "https://api.contentful.com/organizations/acme/organization_memberships"
              "sys.user" 250 () [] 3)
    as (res & Hres & Hlen & _ & _ & _ & Hskips & Hitems & H250 & H0 & Hdb).
  - intros w' skip. eexists. split; [reflexivity|]. vm_compute. reflexivity.
  - vm_compute. discriminate.
  - exists res. eexists. split; [exact Hres|]. split; [by apply H250|].
    rewrite (Hdb (Sample.collection 250)).
    + vm_compute. reflexivity.
    + vm_compute. reflexivity.
    + intros w' skip p [= <-]. reflexivity.
Defined.

Example fetch_total_zero :
  fetchPagedDataWithIncludes (Sample.paged []) "tok" 1 "u" "sys.user" ((), []) =
  Some (mkFetchResult [] ∅, ((), [Get (page_request "tok" "u" "sys.user" 0)])).
Proof. vm_compute. reflexivity. Qed.

Example fetch_total_250 :
  (λ r, (length (allItems r.1), r.2.2)) <$>
    fetchPagedDataWithIncludes (Sample.paged (Sample.collection 250)) "tok" 3
                               "u" "sys.user" ((), []) =
  Some (250%nat, Get <$> [page_request "tok" "u" "sys.user" 0;
                          page_request "tok" "u" "sys.user" 100;
                          page_request "tok" "u" "sys.user" 200]).
Proof. vm_compute. reflexivity. Qed.

(** Without fuel for the third page the model does not return. *)
Example fetch_total_250_short_of_fuel :
  fetchPagedDataWithIncludes (Sample.paged (Sample.collection 250)) "tok" 2
                             "u" "sys.user" ((), []) = None.
Proof. vm_compute. reflexivity. Qed.

Lemma fetch_failure_keeps_partial_result_witness :
  (∃ res st',
     fetchPagedDataWithIncludes (Sample.flaky (Sample.collection 150)) "tok" 2
                                "u" "sys.user" (0%nat, []) = Some (res, st') ∧
     allItems res = take 100 (Sample.collection 150) ∧
     st'.2 = [Get (page_request "tok" "u" "sys.user" 0);
              Get (page_request "tok" "u" "sys.user" 100);
              ConsoleError (fetch_warning "u") "Request failed with status code 429"]) ∧
  (∃ userMap st3,
     build_userMap (Sample.acme false) "tok" "acme" 1 ((), []) = Some (userMap, st3) ∧
     (Parser_parse fields (finalData userMap) =
      mkTable fields
        [["U1"; "ann@example.com"; "Ann Lee"; "Admin"; JS.empty_str; "Design"];
         ["U2"; JS.empty_str; JS.empty_str; JS.empty_str; JS.empty_str; "Design"]]) ∧
     ∀ k r, userMap !! k = Some r → spaceRoles r = []).
Proof.
  split.
  - destruct (fetch_failure_keeps_partial_result
                (Sample.flaky (Sample.collection 150)) "tok" "acme" "u" "sys.user"
                [mkPage (Some (take 100 (Sample.collection 150))) (Some 150%Z) None]
                "Request failed with status code 429" 0%nat [] 2)
      as (Hres & Hitems & _).
    + vm_compute. reflexivity.
    + intros [|i] p; [intros [= <-]; vm_compute; reflexivity|intros [=]].
    + simpl. lia.
    + eexists _, _. split; [exact Hres|]. split; [|reflexivity].
      rewrite Hitems. vm_compute. reflexivity.
  - destruct (fetch_failure_keeps_partial_result
                (Sample.acme false) "tok" "acme" (space_url "acme") "sys.user"
                [] "Request failed with status code 500" ()
                [Get (page_request "tok" (org_url "acme") "sys.user" 0)] 1)
      as (_ & _ & Hscript).
    + vm_compute. reflexivity.
    + intros i p [=].
    + simpl. lia.
    + edestruct (Hscript ((), [])) as (Hbuilt & Hnil);
        [reflexivity|reflexivity|vm_compute; reflexivity|vm_compute; reflexivity|].
      destruct (Hnil eq_refl) as (Hagg & Hnone).
      eexists _, _. split; [exact Hbuilt|]. split; [|exact Hnone].
      vm_compute. reflexivity.
Defined.

Lemma items_without_identifier_skipped_witness :
  let orphan := mkItem (Some "M0") None None (Some true) None None in
  let ghost := mkItem None None (Some "Ghost") None None None in
  let design := mkItem (Some "T1") None (Some "Design") None None None in
  org_step ∅ ∅ orphan = ∅ ∧
  team_member_step (Some "Design") ∅ orphan = ∅ ∧
  team_loop (Sample.acme true) "tok" "acme" 1 [design; ghost] ∅ ((), []) =
  team_loop (Sample.acme true) "tok" "acme" 1 [design] ∅ ((), []).
Proof.
  intros orphan ghost design.
  destruct (items_without_identifier_skipped (Sample.acme true) "tok" "acme"
              orphan ghost)
    as (Horg & _ & Hmember & _ & _ & _ & _ & Hloop).
  - reflexivity.
  - reflexivity.
  - split; [apply Horg|]. split; [apply Hmember|].
    apply (Hloop 1%nat ∅ ((), []) [design] []).
Defined.

Example orphan_item_adds_no_row :
  finalData (merge_org (add_page (mkFetchResult [] ∅) Sample.org_page) ∅) =
  [mkRow "U1" "ann@example.com" "Ann Lee" "Admin" JS.empty_str JS.empty_str].
Proof. vm_compute. reflexivity. Qed.

Lemma identity_fields_set_once_witness :
  let r := mkUserRecord "U1" JS.empty_str JS.empty_str ["Admin"] [] [] in
  let space := add_page (mkFetchResult [] ∅) Sample.space_page in
  ∃ r', merge_space space {["U1" := r]} !! "U1" = Some r' ∧
        email r' = JS.empty_str ∧ name r' = JS.empty_str ∧
        spaceRoles r' = ["Editor"].
Proof.
  intros r space.
  destruct (identity_fields_set_once {["U1" := r]} "U1" r)
    as (_ & _ & _ & _ & Hspace & _).
  - vm_compute. reflexivity.
  - destruct (Hspace space) as (r' & Hr' & Hid & He & Hn).
    exists r'. split; [exact Hr'|]. split; [exact He|]. split; [exact Hn|].
    vm_compute in Hr'. by injection Hr' as <-.
Defined.


Lemma empty_identity_stays_empty_witness :
  let org := mkFetchResult [Sample.member "U1"] ∅ in
  let space := add_page (mkFetchResult [] ∅) Sample.space_page in
  email_of (allUsers space !! "U1") = "ann@example.com" ∧
  name_of (allUsers space !! "U1") = "Ann Lee" ∧
  ∃ r, aggregate org space ∅ !! "U1" = Some r ∧
       email r = JS.empty_str ∧ name r = JS.empty_str ∧
       spaceRoles r = ["Editor"] ∧
       to_row r ∈ finalData (aggregate org space ∅).
Proof.
  intros org space. split; [vm_compute; reflexivity|].
  split; [vm_compute; reflexivity|].
  destruct (empty_identity_stays_empty org space ∅ "U1")
    as (r & Hr & He & Hn & Hrow & Hid & Hrow_email & Hrow_name).
  - vm_compute. left.
  - vm_compute. reflexivity.
  - exists r. split; [exact Hr|]. split; [exact He|]. split; [exact Hn|].
    split; [|exact Hrow]. vm_compute in Hr. by injection Hr as <-.
Defined.

Lemma display_name_trimmed_join_witness :
  let nbsp := string_of_list_ascii (JS.utf8_encode 0xA0%N) in
  name_of (Some (mkUserObj (Some "U1") None (Some "Ann") None)) = "Ann" ∧
  name_of (Some (mkUserObj (Some "U1") None None (Some "Lee"))) = "Lee" ∧
  name_of None = JS.empty_str ∧
  name_of (Some (mkUserObj (Some "U1") None (Some (nbsp +:+ "Ann")) None)) = "Ann".
Proof.
  intros nbsp. split_and!.
  - destruct (display_name_trimmed_join
                (Some (mkUserObj (Some "U1") None (Some "Ann") None)))
      as (_ & _ & _ & _ & _ & Hfirst & _).
    apply Hfirst; [reflexivity|]. split; vm_compute; reflexivity.
  - destruct (display_name_trimmed_join
                (Some (mkUserObj (Some "U1") None None (Some "Lee"))))
      as (_ & _ & _ & _ & _ & _ & Hlast & _).
    apply Hlast; [reflexivity|]. split; vm_compute; reflexivity.
  - destruct (display_name_trimmed_join None) as (_ & Hnone & _).
    by apply Hnone.
  - destruct (display_name_trimmed_join
                (Some (mkUserObj (Some "U1") None (Some (nbsp +:+ "Ann")) None)))
      as (_ & _ & _ & Htrim & _).
    rewrite Htrim by reflexivity. vm_compute. reflexivity.
Defined.

Example row_with_several_names :
  to_row (mkUserRecord "U1" "ann@example.com" "Ann Lee" ["Admin"; "Editor"]
                       ["Editor"; "Author"; "Reviewer"]
                       [Some "Design"; None; Some "Ops"]) =
  mkRow "U1" "ann@example.com" "Ann Lee" "Admin; Editor"
        "Editor; Author; Reviewer" "Design; ; Ops".
Proof. vm_compute. reflexivity. Qed.

(** No-break space, line separator, ideographic space and the byte order
    mark are trimmed; letters whose encoding ends like that of a no-break
    space, and white space between the names, stay. *)
Example trim_beyond_ascii :
  let enc n := string_of_list_ascii (JS.utf8_encode n) in
  JS.trim (enc 0xA0%N +:+ "Ann" +:+ enc 0x2028%N +:+ enc 0x3000%N) = "Ann" ∧
  JS.trim (enc 0xFEFF%N +:+ " Ann" +:+ enc 0xA0%N +:+ "Lee" +:+ enc 0x2009%N)
    = "Ann" +:+ enc 0xA0%N +:+ "Lee" ∧
  JS.trim (enc 0xE0%N +:+ "b" +:+ enc 0xE0%N) = enc 0xE0%N +:+ "b" +:+ enc 0xE0%N ∧
  JS.trim (enc 0x2020%N) = enc 0x2020%N ∧
  JS.trim (enc 0x180E%N +:+ "x") = enc 0x180E%N +:+ "x".
Proof. vm_compute. repeat split. Qed.

Example display_name_examples :
  name_of (Some (mkUserObj (Some "U1") None (Some "Ann") (Some "Lee"))) = "Ann Lee" ∧
  name_of (Some (mkUserObj (Some "U1") None (Some " Ann") None)) = "Ann" ∧
  name_of (Some (mkUserObj (Some "U1") None None None)) = JS.empty_str.
Proof. by vm_compute. Qed.

(** * Further properties of the script *)

(** ** The side table of included users *)

Lemma set_user_unfold (m : gmap string UserObj) (u : UserObj) :
  set_user m u = match user_key u with Some k => <[k := u]> m | None => m end.
Proof. unfold set_user, user_key. by destruct (u_sys_id u) as [[|c s]|]. Qed.

Lemma set_user_fold_lookup (us : list UserObj) (m : gmap string UserObj) (k : string) :
  foldl set_user m us !! k =
  match last (users_with_key k us) with
  | Some u => Some u
  | None => m !! k
  end.
Proof.
  revert m. induction us as [|u us IH]; intros m; [done|].
  simpl. rewrite IH. unfold users_with_key. rewrite filter_cons, set_user_unfold.
  destruct (decide (user_key u = Some k)) as [Hk|Hk].
  - rewrite Hk, last_cons, lookup_insert_eq.
    by destruct (last (filter _ us)).
  - destruct (last (filter _ us)); [done|].
    destruct (user_key u) as [j|]; [|done].
    rewrite lookup_insert_ne; [done|congruence].
Qed.

Lemma allUsers_foldl_add_page (pages : list Page) (acc : FetchResult) :
  allUsers (foldl add_page acc pages) =
  foldl set_user (allUsers acc) (concat (includes_of <$> pages)).
Proof.
  revert acc. induction pages as [|p pages IH]; intros acc; [done|].
  simpl. rewrite IH, foldl_app. f_equal. simpl.
  unfold collect_users, includes_of. by destruct (p_includes_User p).
Qed.

(** X1. Across the pages of one call the side table is filled last writer
    wins: the entry under an identifier is the last included user, over all
    pages in page order, whose [sys.id] is that (non-empty) identifier, and
    an identifier no page includes keeps the entry it had; included users
    without an identifier are not filed at all. *)
Theorem side_table_last_writer_wins (pages : list Page) (acc : FetchResult)
    (k : string) :
  allUsers (foldl add_page acc pages) !! k =
  match last (users_with_key k (concat (includes_of <$> pages))) with
  | Some u => Some u
  | None => allUsers acc !! k
  end ∧
  (∀ u, allUsers (foldl add_page (mkFetchResult [] ∅) pages) !! k = Some u →
        u_sys_id u = Some k ∧ k ≠ JS.empty_str ∧
        u ∈ concat (includes_of <$> pages)).
Proof.
  rewrite allUsers_foldl_add_page, set_user_fold_lookup. split; [done|].
  intros u. rewrite allUsers_foldl_add_page, set_user_fold_lookup. simpl.
  destruct (last _) as [u'|] eqn:Hlast; [|by rewrite lookup_empty].
  intros [= ->]. apply last_Some_elem_of in Hlast.
  apply list_elem_of_filter in Hlast as [Hkey Hin].
  unfold user_key in Hkey. destruct (u_sys_id u) as [[|c s]|]; simplify_eq/=.
  by split_and!.
Qed.

Example side_table_overwrite :
  let old := mkUserObj (Some "U1") (Some "old@example.com") None None in
  let new := mkUserObj (Some "U1") (Some "new@example.com") None None in
  let anon := mkUserObj None (Some "anon@example.com") None None in
  allUsers (foldl add_page (mkFetchResult [] ∅)
                  [mkPage None None (Some [old; anon]); mkPage None None (Some [new])])
  = {["U1" := new]}.
Proof. vm_compute. reflexivity. Qed.

(** ** Role names: the empty result *)

Lemma new_Set_nil_iff {A} `{EqDecision A} (l : list A) : JS.new_Set l = [] ↔ l = [].
Proof.
  split; [|by intros ->]. intros Hnil. destruct l as [|x l]; [done|].
  assert (Hx : x ∈ JS.new_Set (x :: l)) by (apply elem_of_new_Set; left).
  rewrite Hnil in Hx. by apply elem_of_nil in Hx.
Qed.

Lemma length_dedup_first {A} `{EqDecision A} (l : list A) :
  (length (JS.dedup_first l) ≤ length l)%nat.
Proof.
  induction l as [|x l IH]; simpl; [done|].
  pose proof (length_filter (λ y, y ≠ x) (JS.dedup_first l)). lia.
Qed.

Lemma length_omap_le {A B} (f : A → option B) (l : list A) :
  (length (omap f l) ≤ length l)%nat.
Proof.
  induction l as [|a l IH]; [done|].
  change (omap f (a :: l)) with
    (match f a with Some b => b :: omap f l | None => omap f l end).
  destruct (f a); simpl; lia.
Qed.

(** X2. Role-name extraction returns the empty list exactly when the admin
    flag is falsy, no entry of the roles array has a truthy name and the
    legacy role is falsy; and it never returns more names than the array has
    entries plus two. *)
Theorem getRoleNames_empty_iff (m : Item) :
  (getRoleNames m = [] ↔
   JS.truthy_flag (i_admin m) = false ∧
   (∀ r, r ∈ default [] (i_roles m) → JS.truthy (r_name r) = false) ∧
   JS.truthy (i_role m) = false) ∧
  (length (getRoleNames m) ≤ length (default [] (i_roles m)) + 2)%nat.
Proof.
  rewrite getRoleNames_sources. split.
  - rewrite new_Set_nil_iff. unfold admin_label, named_roles, legacy_role. split.
    + intros Happ. apply app_eq_nil in Happ as [Hadmin Happ].
      apply app_eq_nil in Happ as [Hroles Hlegacy].
      split_and!.
      * by destruct (JS.truthy_flag (i_admin m)).
      * intros r Hr. destruct (JS.truthy (r_name r)) eqn:Ht; [|done].
        assert (Hin : JS.or_empty (r_name r) ∈
                  omap (λ r, if JS.truthy (r_name r) then r_name r else None)
                       (default [] (i_roles m))).
        { apply list_elem_of_omap. exists r. split; [done|]. rewrite Ht.
          by destruct (r_name r). }
        rewrite Hroles in Hin. by apply elem_of_nil in Hin.
      * by destruct (JS.truthy (i_role m)).
    + intros (Hadmin & Hroles & Hlegacy). rewrite Hadmin, Hlegacy. simpl.
      rewrite app_nil_r. induction (default [] (i_roles m)) as [|r rs IH]; [done|].
      simpl. rewrite (Hroles r) by left. apply IH.
      intros r' Hr'. apply Hroles. by right.
  - rewrite new_Set_dedup_first.
    etrans; [apply length_dedup_first|]. rewrite !length_app.
    assert (length (admin_label m) ≤ 1)%nat.
    { unfold admin_label. destruct (JS.truthy_flag _); simpl; lia. }
    assert (length (legacy_role m) ≤ 1)%nat.
    { unfold legacy_role. destruct (JS.truthy _); simpl; lia. }
    assert (length (named_roles m) ≤ length (default [] (i_roles m)))%nat.
    { unfold named_roles. apply length_omap_le. }
    lia.
Qed.

(** ** Merging the same thing twice *)

Lemma new_Set_absorb {A} `{EqDecision A} (l c : list A) :
  JS.new_Set (JS.new_Set l ++ c) = JS.new_Set (l ++ c).
Proof.
  unfold JS.new_Set at 1 3. rewrite !foldl_app.
  fold (JS.new_Set (JS.new_Set l)). fold (JS.new_Set l). by rewrite new_Set_idemp.
Qed.

Lemma with_spaceRoles_twice names r :
  with_spaceRoles names (with_spaceRoles names r) = with_spaceRoles names r.
Proof. unfold with_spaceRoles. simpl. f_equal. apply new_Set_union_twice. Qed.

Lemma with_teams_twice names r :
  with_teams names (with_teams names r) = with_teams names r.
Proof. unfold with_teams. simpl. f_equal. apply new_Set_union_twice. Qed.

Lemma upsert_twice f k e n (m : gmap string UserRecord) :
  (∀ r, f (f r) = f r) →
  alter f k (ensure_record k e n (alter f k (ensure_record k e n m))) =
  alter f k (ensure_record k e n m).
Proof.
  intros Hf. apply map_eq. intros j. rewrite !lookup_alter_ensure.
  case_decide; [|done]. subst. rewrite decide_True by done. simpl. by rewrite Hf.
Qed.

(** X3. Merging the same item a second time changes nothing: each of the
    three loop bodies is idempotent, whatever the map, the item and the side
    table. *)
Theorem merge_steps_idempotent (m : gmap string UserRecord) :
  (∀ U it, org_step U (org_step U m it) it = org_step U m it) ∧
  (∀ U it, space_step U (space_step U m it) it = space_step U m it) ∧
  (∀ entry, team_step (team_step m entry) entry = team_step m entry).
Proof.
  split_and!.
  - intros U it. rewrite !org_step_unfold. destruct (user_id_of it); [|done].
    apply upsert_twice, with_orgRoles_twice.
  - intros U it. rewrite !space_step_unfold. destruct (user_id_of it); [|done].
    apply upsert_twice, with_spaceRoles_twice.
  - intros [k ts]. apply upsert_twice, with_teams_twice.
Qed.

(** ** What a pass reads and writes *)

Section FieldPass.
Context {A : Type} `{EqDecision A} {X : Type}.
Context (get : UserRecord → list A) (upd : list A → UserRecord → UserRecord).
Context (key : X → option string) (names : X → list A).
Context (em nm : string → string).
Context (step : gmap string UserRecord → X → gmap string UserRecord).
Hypothesis Hstep : ∀ m x,
  step m x = match key x with
             | Some k => alter (upd (names x)) k (ensure_record k (em k) (nm k) m)
             | None => m
             end.
Hypothesis Hget : ∀ ns r, get (upd ns r) = JS.new_Set (get r ++ ns).
Hypothesis Hnew : ∀ k e n, get (new_record k e n) = [].

Local Abbreviation names_for k xs :=
  (concat (names <$> filter (λ x, key x = Some k) xs)).

Lemma pass_untouched xs m k :
  (∀ x, x ∈ xs → key x ≠ Some k) → foldl step m xs !! k = m !! k.
Proof.
  revert m. induction xs as [|x xs IH]; intros m Hxs; [done|]. simpl.
  rewrite IH by (intros y Hy; apply Hxs; by right).
  rewrite Hstep. destruct (key x) as [j|] eqn:Hj; [|done].
  rewrite lookup_alter_ensure, decide_False; [done|].
  intros ->. by apply (Hxs x); [left|].
Qed.

Lemma pass_get xs m k :
  (∀ j r, m !! j = Some r → NoDup (get r)) →
  default [] (get <$> foldl step m xs !! k) =
  JS.new_Set (default [] (get <$> m !! k) ++ names_for k xs).
Proof.
  revert m. induction xs as [|x xs IH]; intros m Hnd.
  - simpl. rewrite app_nil_r. symmetry. apply new_Set_NoDup.
    destruct (m !! k) as [r|] eqn:Hk; simpl; [by apply (Hnd k)|constructor].
  - simpl. rewrite IH.
    2:{ intros j r. rewrite Hstep. destruct (key x) as [i|]; [|apply Hnd].
        rewrite lookup_alter_ensure. case_decide; [|apply Hnd].
        intros [= <-]. rewrite Hget. apply NoDup_new_Set. }
    rewrite filter_cons, Hstep.
    destruct (decide (key x = Some k)) as [Hk|Hk].
    + rewrite Hk, lookup_alter_ensure, decide_True by done. simpl.
      rewrite Hget, new_Set_absorb, <- app_assoc. do 2 f_equal.
      by destruct (m !! k); simpl; [|rewrite Hnew].
    + destruct (key x) as [j|]; [|done].
      rewrite lookup_alter_ensure, decide_False; [done|congruence].
Qed.

Lemma pass_frame {B} (g : UserRecord → B) (g0 : B) xs m k :
  (∀ ns r, g (upd ns r) = g r) →
  g (new_record k (em k) (nm k)) = g0 →
  default g0 (g <$> foldl step m xs !! k) = default g0 (g <$> m !! k).
Proof.
  intros Hg Hg0. revert m. induction xs as [|x xs IH]; intros m; [done|].
  simpl. rewrite IH, Hstep. destruct (key x) as [j|]; [|done].
  rewrite lookup_alter_ensure. case_decide; [subst|done].
  simpl. rewrite Hg. by destruct (m !! k).
Qed.

End FieldPass.

Lemma team_step_unfold m (entry : string * list (option string)) :
  team_step m entry =
  match Some entry.1 with
  | Some k => alter (with_teams entry.2) k
                (ensure_record k JS.empty_str JS.empty_str m)
  | None => m
  end.
Proof. by destruct entry. Qed.

Lemma elem_of_user_ids items k :
  k ∈ user_ids items ↔ ∃ it, it ∈ items ∧ user_id_of it = Some k.
Proof. unfold user_ids. apply list_elem_of_omap. Qed.

Lemma items_for_nil items k : k ∉ user_ids items → items_for k items = [].
Proof.
  intros Hk. apply filter_none. intros it Hit Hkey.
  apply Hk, elem_of_user_ids. by exists it.
Qed.

(** The entries of a dictionary under one key. *)
Lemma entries_for (userToTeams : gmap string (list (option string))) k :
  concat (snd <$> filter (λ e : string * list (option string), Some e.1 = Some k)
                         (Object_entries userToTeams)) =
  default [] (userToTeams !! k).
Proof.
  unfold Object_entries.
  pose proof (NoDup_fst_map_to_list userToTeams) as Hnd.
  assert (Hin : ∀ ts, (k, ts) ∈ map_to_list userToTeams ↔ userToTeams !! k = Some ts).
  { intros ts. apply elem_of_map_to_list. }
  destruct (userToTeams !! k) as [ts|] eqn:Hk; simpl.
  - specialize (proj2 (Hin ts) eq_refl) as Hts. clear Hin.
    induction (map_to_list userToTeams) as [|[j vs] l IH]; [by apply elem_of_nil in Hts|].
    rewrite fmap_cons in Hnd. apply NoDup_cons in Hnd as [Hj Hnd].
    rewrite filter_cons. simpl. destruct (decide (Some j = Some k)) as [[= ->]|Hne].
    + rewrite filter_none.
      2:{ intros [i us] Hi [= ->]. apply Hj. simpl. apply list_elem_of_fmap.
          by exists (k, us). }
      simpl. rewrite app_nil_r. apply elem_of_cons in Hts as [[= ->]|Hts]; [done|].
      exfalso. apply Hj. apply list_elem_of_fmap. by exists (k, ts).
    + apply IH; [done|]. apply elem_of_cons in Hts as [[= -> ->]|Hts]; [done|done].
  - rewrite filter_none; [done|].
    intros [j vs] Hj [= ->]. apply Hin in Hj. congruence.
Qed.

Lemma merge_org_get org m k :
  userMap_inv m →
  default [] (orgRoles <$> merge_org org m !! k) =
  JS.new_Set (default [] (orgRoles <$> m !! k) ++ roles_for k (allItems org)).
Proof.
  intros Hinv.
  apply (pass_get orgRoles with_orgRoles user_id_of getRoleNames
           (λ k, email_of (allUsers org !! k)) (λ k, name_of (allUsers org !! k))
           (org_step (allUsers org)) (org_step_unfold (allUsers org)));
    [done|done|]. intros j r Hj. by apply (Hinv j r Hj).
Qed.

Lemma merge_space_get space m k :
  userMap_inv m →
  default [] (spaceRoles <$> merge_space space m !! k) =
  JS.new_Set (default [] (spaceRoles <$> m !! k) ++ roles_for k (allItems space)).
Proof.
  intros Hinv.
  apply (pass_get spaceRoles with_spaceRoles user_id_of getRoleNames
           (λ k, email_of (allUsers space !! k)) (λ k, name_of (allUsers space !! k))
           (space_step (allUsers space)) (space_step_unfold (allUsers space)));
    [done|done|]. intros j r Hj. by apply (Hinv j r Hj).
Qed.

Lemma merge_teams_get userToTeams m k :
  userMap_inv m →
  default [] (teams <$> merge_teams userToTeams m !! k) =
  JS.new_Set (default [] (teams <$> m !! k) ++ default [] (userToTeams !! k)).
Proof.
  intros Hinv. rewrite <- entries_for.
  apply (pass_get teams with_teams (λ e : string * list (option string), Some e.1) snd
           (λ _, JS.empty_str) (λ _, JS.empty_str) team_step team_step_unfold);
    [done|done|]. intros j r Hj. by apply (Hinv j r Hj).
Qed.

Lemma merge_org_frame {B} (g : UserRecord → B) (g0 : B) org m k :
  (∀ ns r, g (with_orgRoles ns r) = g r) →
  g (new_record k (email_of (allUsers org !! k)) (name_of (allUsers org !! k))) = g0 →
  default g0 (g <$> merge_org org m !! k) = default g0 (g <$> m !! k).
Proof.
  apply (pass_frame with_orgRoles user_id_of getRoleNames
           (λ k, email_of (allUsers org !! k)) (λ k, name_of (allUsers org !! k))
           (org_step (allUsers org)) (org_step_unfold (allUsers org)) g g0).
Qed.

Lemma merge_space_frame {B} (g : UserRecord → B) (g0 : B) space m k :
  (∀ ns r, g (with_spaceRoles ns r) = g r) →
  g (new_record k (email_of (allUsers space !! k)) (name_of (allUsers space !! k))) = g0 →
  default g0 (g <$> merge_space space m !! k) = default g0 (g <$> m !! k).
Proof.
  apply (pass_frame with_spaceRoles user_id_of getRoleNames
           (λ k, email_of (allUsers space !! k)) (λ k, name_of (allUsers space !! k))
           (space_step (allUsers space)) (space_step_unfold (allUsers space)) g g0).
Qed.

Lemma merge_teams_frame {B} (g : UserRecord → B) (g0 : B) userToTeams m k :
  (∀ ns r, g (with_teams ns r) = g r) →
  g (new_record k JS.empty_str JS.empty_str) = g0 →
  default g0 (g <$> merge_teams userToTeams m !! k) = default g0 (g <$> m !! k).
Proof.
  apply (pass_frame with_teams (λ e : string * list (option string), Some e.1) snd
           (λ _, JS.empty_str) (λ _, JS.empty_str) team_step team_step_unfold g g0).
Qed.

Lemma merge_org_untouched org m k :
  k ∉ user_ids (allItems org) → merge_org org m !! k = m !! k.
Proof.
  intros Hk.
  apply (pass_untouched with_orgRoles user_id_of getRoleNames
           (λ k, email_of (allUsers org !! k)) (λ k, name_of (allUsers org !! k))
           (org_step (allUsers org)) (org_step_unfold (allUsers org))).
  intros it Hit Hkey. apply Hk, elem_of_user_ids. by exists it.
Qed.

Lemma merge_space_untouched space m k :
  k ∉ user_ids (allItems space) → merge_space space m !! k = m !! k.
Proof.
  intros Hk.
  apply (pass_untouched with_spaceRoles user_id_of getRoleNames
           (λ k, email_of (allUsers space !! k)) (λ k, name_of (allUsers space !! k))
           (space_step (allUsers space)) (space_step_unfold (allUsers space))).
  intros it Hit Hkey. apply Hk, elem_of_user_ids. by exists it.
Qed.

Lemma merge_teams_untouched (userToTeams : gmap string (list (option string))) m k :
  userToTeams !! k = None → merge_teams userToTeams m !! k = m !! k.
Proof.
  intros Hk.
  apply (pass_untouched with_teams (λ e : string * list (option string), Some e.1) snd
           (λ _, JS.empty_str) (λ _, JS.empty_str) team_step team_step_unfold).
  intros [j ts] Hin [= ->]. apply elem_of_map_to_list in Hin. congruence.
Qed.

(** X4. Each pass writes one list of the users it mentions and nothing
    else: the record of an identifier that no item of the pass resolves to
    (no key of [userToTeams], for the team pass) is the same before and
    after, and in the record of any identifier the two lists that belong to
    the other passes are what they were (empty, when the pass created the
    record). *)
Theorem passes_write_their_own_list (org space : FetchResult)
    (userToTeams : gmap string (list (option string)))
    (m : gmap string UserRecord) (k : string) :
  (k ∉ user_ids (allItems org) → merge_org org m !! k = m !! k) ∧
  (k ∉ user_ids (allItems space) → merge_space space m !! k = m !! k) ∧
  (userToTeams !! k = None → merge_teams userToTeams m !! k = m !! k) ∧
  (∀ r, merge_org org m !! k = Some r →
        spaceRoles r = default [] (spaceRoles <$> m !! k) ∧
        teams r = default [] (teams <$> m !! k)) ∧
  (∀ r, merge_space space m !! k = Some r →
        orgRoles r = default [] (orgRoles <$> m !! k) ∧
        teams r = default [] (teams <$> m !! k)) ∧
  (∀ r, merge_teams userToTeams m !! k = Some r →
        orgRoles r = default [] (orgRoles <$> m !! k) ∧
        spaceRoles r = default [] (spaceRoles <$> m !! k)).
Proof.
  split_and!.
  - apply merge_org_untouched.
  - apply merge_space_untouched.
  - apply merge_teams_untouched.
  - intros r Hr. split.
    + rewrite <- (merge_org_frame spaceRoles [] org m k); [by rewrite Hr|done|done].
    + rewrite <- (merge_org_frame teams [] org m k); [by rewrite Hr|done|done].
  - intros r Hr. split.
    + rewrite <- (merge_space_frame orgRoles [] space m k); [by rewrite Hr|done|done].
    + rewrite <- (merge_space_frame teams [] space m k); [by rewrite Hr|done|done].
  - intros r Hr. split.
    + rewrite <- (merge_teams_frame orgRoles [] userToTeams m k);
        [by rewrite Hr|done|done].
    + rewrite <- (merge_teams_frame spaceRoles [] userToTeams m k);
        [by rewrite Hr|done|done].
Qed.

Lemma merge_org_inv org m : userMap_inv m → userMap_inv (merge_org org m).
Proof. intros Hinv. by apply foldl_inv; [apply org_step_inv|]. Qed.

Lemma merge_space_inv space m : userMap_inv m → userMap_inv (merge_space space m).
Proof. intros Hinv. by apply foldl_inv; [apply space_step_inv|]. Qed.

(** X5. The lists of a final record in closed form: the organization
    roles are the role names of the organization memberships of that user,
    in item order, each kept at its first occurrence; the space roles are the
    same over the space memberships; the teams are the user's entry of
    [userToTeams], each name kept at its first occurrence. *)
Theorem final_lists_closed_form (org space : FetchResult)
    (userToTeams : gmap string (list (option string))) (k : string)
    (r : UserRecord)
    (Hr : aggregate org space userToTeams !! k = Some r) :
  orgRoles r = JS.dedup_first (roles_for k (allItems org)) ∧
  spaceRoles r = JS.dedup_first (roles_for k (allItems space)) ∧
  teams r = JS.dedup_first (default [] (userToTeams !! k)).
Proof.
  pose proof (merge_org_inv org ∅ userMap_inv_empty) as Hinv1.
  pose proof (merge_space_inv space _ Hinv1) as Hinv2.
  unfold aggregate in Hr. split_and!.
  - rewrite <- new_Set_dedup_first.
    rewrite <- (app_nil_l (roles_for k (allItems org))).
    change [] with (default [] (orgRoles <$> (∅ : gmap string UserRecord) !! k)) at 1.
    rewrite <- merge_org_get by apply userMap_inv_empty.
    rewrite <- (merge_space_frame orgRoles [] space _ k) by done.
    rewrite <- (merge_teams_frame orgRoles [] userToTeams _ k) by done.
    by rewrite Hr.
  - rewrite <- new_Set_dedup_first.
    rewrite <- (app_nil_l (roles_for k (allItems space))).
    replace (@nil string)
      with (default [] (spaceRoles <$> merge_org org ∅ !! k)) at 1.
    2:{ rewrite (merge_org_frame spaceRoles [] org ∅ k) by done.
        by rewrite lookup_empty. }
    rewrite <- merge_space_get by done.
    rewrite <- (merge_teams_frame spaceRoles [] userToTeams _ k) by done.
    by rewrite Hr.
  - rewrite <- new_Set_dedup_first.
    rewrite <- (app_nil_l (default [] (userToTeams !! k))).
    replace (@nil (option string))
      with (default [] (teams <$> merge_space space (merge_org org ∅) !! k)) at 1.
    2:{ rewrite (merge_space_frame teams [] space _ k) by done.
        rewrite (merge_org_frame teams [] org ∅ k) by done.
        by rewrite lookup_empty. }
    rewrite <- merge_teams_get by done. by rewrite Hr.
Qed.

(** X6. The identity fields of a final record in closed form: the record
    is stored under its own identifier, and its email and name are those of
    the organization side table when an organization membership resolves to
    the user, otherwise those of the space side table when a space membership
    does, and empty otherwise. *)
Theorem final_identity_closed_form (org space : FetchResult)
    (userToTeams : gmap string (list (option string))) (k : string)
    (r : UserRecord)
    (Hr : aggregate org space userToTeams !! k = Some r) :
  userId r = k ∧
  email r = email_of (identity_source org space k) ∧
  name r = name_of (identity_source org space k).
Proof.
  split; [by apply (aggregate_inv org space userToTeams k r Hr)|].
  unfold identity_source, aggregate in *.
  destruct (decide (k ∈ user_ids (allItems org))) as [Horg|Horg].
  - destruct (merge_org_created (allUsers org) (allItems org) ∅ k Horg)
      as (r1 & Hr1 & _ & He1 & Hn1); [apply lookup_empty|].
    destruct (foldl_keeps _ (space_step_keeps (allUsers space)) (allItems space)
                _ _ _ Hr1) as (r2 & Hr2 & _ & He2 & Hn2).
    destruct (foldl_keeps _ team_step_keeps (Object_entries userToTeams)
                _ _ _ Hr2) as (r3 & Hr3 & _ & He3 & Hn3).
    unfold merge_teams, merge_space, merge_org in Hr. rewrite Hr3 in Hr.
    injection Hr as <-. split; congruence.
  - assert (Hnone1 : merge_org org ∅ !! k = None).
    { rewrite merge_org_untouched by done. apply lookup_empty. }
    destruct (decide (k ∈ user_ids (allItems space))) as [Hspace|Hspace].
    + destruct (merge_space_created (allUsers space) (allItems space) _ k Hspace Hnone1)
        as (r2 & Hr2 & _ & He2 & Hn2).
      destruct (foldl_keeps _ team_step_keeps (Object_entries userToTeams)
                  _ _ _ Hr2) as (r3 & Hr3 & _ & He3 & Hn3).
      unfold merge_teams, merge_space in Hr. rewrite Hr3 in Hr.
      injection Hr as <-. split; congruence.
    + assert (Hnone2 : merge_space space (merge_org org ∅) !! k = None).
      { by rewrite merge_space_untouched. }
      split.
      * pose proof (merge_teams_frame email JS.empty_str userToTeams
                      (merge_space space (merge_org org ∅)) k) as He.
        rewrite Hr, Hnone2 in He. by apply He.
      * pose proof (merge_teams_frame name JS.empty_str userToTeams
                      (merge_space space (merge_org org ∅)) k) as Hn.
        rewrite Hr, Hnone2 in Hn. by apply Hn.
Qed.

(** ** The user-to-teams map *)

Lemma team_members_default teamName items
    (userToTeams : gmap string (list (option string))) k :
  default [] (foldl (team_member_step teamName) userToTeams items !! k) =
  default [] (userToTeams !! k) ++
  replicate (length (items_for k items)) teamName.
Proof.
  revert userToTeams. induction items as [|it items IH]; intros utt.
  - simpl. by rewrite app_nil_r.
  - simpl. rewrite IH, team_member_step_unfold. unfold items_for.
    rewrite filter_cons.
    destruct (decide (user_id_of it = Some k)) as [Hk|Hk].
    + rewrite Hk, lookup_insert_eq. simpl. by rewrite <- app_assoc.
    + destruct (user_id_of it) as [j|]; [|done].
      rewrite lookup_insert_ne; [done|congruence].
Qed.

Lemma team_members_inv teamName items
    (userToTeams : gmap string (list (option string))) :
  userToTeams_inv userToTeams →
  userToTeams_inv (foldl (team_member_step teamName) userToTeams items).
Proof.
  revert userToTeams.
  induction items as [|it items IH]; intros utt Hinv; [done|].
  simpl. apply IH. rewrite team_member_step_unfold.
  destruct (user_id_of it) as [j|] eqn:Hj; [|done].
  intros i ts. rewrite lookup_insert. case_decide; [subst|apply Hinv].
  intros [= <-]. split.
  - by apply user_id_of_Some in Hj as [_ ?].
  - by destruct (default [] (utt !! i)).
Qed.

(** X7. One team's memberships add the team's name to the entry of each
    user once per membership that resolves to that user, at the end of the
    entry and without deduplication; a user gets an entry exactly when one
    existed or a membership resolves to the user; and no entry is ever empty
    or filed under the empty identifier. *)
Theorem team_memberships_append_name (teamName : option string)
    (items : list Item) (userToTeams : gmap string (list (option string)))
    (k : string) :
  let after := foldl (team_member_step teamName) userToTeams items in
  default [] (after !! k) =
    default [] (userToTeams !! k) ++
    replicate (length (items_for k items)) teamName ∧
  (is_Some (after !! k) ↔ is_Some (userToTeams !! k) ∨ k ∈ user_ids items) ∧
  (userToTeams_inv userToTeams → userToTeams_inv after).
Proof.
  intros after. split; [apply team_members_default|].
  split; [apply team_members_is_Some|apply team_members_inv].
Qed.

Example team_memberships_twice :
  foldl (team_member_step (Some "Design")) ∅
        [Sample.member "U1"; Sample.member "U2"; Sample.member "U1"]
  = {["U1" := [Some "Design"; Some "Design"]; "U2" := [Some "Design"]]}.
Proof. vm_compute. reflexivity. Qed.

(** ** More on the fetch routine and its callers *)

Section ScriptMore.
Context {W : Type}.
Context (axios_get : Request → W → Result Page * W).
Context (writeFileSync : string → Table → W → Result unit * W).
Context (KEY ORG : string).

Local Abbreviation fetch := (fetchPagedDataWithIncludes axios_get KEY).
Local Abbreviation loop := (fetch_loop axios_get KEY).
Local Abbreviation request := (page_request KEY).
Local Abbreviation requests_from url inc j n :=
  ((λ k : nat, page_request KEY url inc (limit * Z.of_nat k)) <$> seq j n).

(** X8. A call whose requests are answered by pages until one reports a
    total that the next offset reaches returns all those pages, the last one
    included, after exactly that many requests and without a warning; each
    page is judged by its own total, so the totals may differ from page to
    page. *)
Theorem fetch_stops_at_first_covering_total (url inc : string)
    (pages : list Page) (final : Page) (w : W) (tr : list Event) (fuel : nat)
    (Hresp : responses axios_get (page_requests KEY url inc (S (length pages))) w =
             Ok <$> (pages ++ [final]))
    (Hmore : ∀ (i : nat) p, pages !! i = Some p →
                (limit * Z.of_nat (i + 1) < default 0 (p_total p))%Z)
    (Hfinal : (default 0 (p_total final) ≤ limit * Z.of_nat (length pages + 1))%Z)
    (Hfuel : (length pages < fuel)%nat) :
  let reqs := page_requests KEY url inc (S (length pages)) in
  fetch fuel url inc (w, tr) =
  Some (foldl add_page (mkFetchResult [] ∅) (pages ++ [final]),
        (world_after axios_get reqs w, tr ++ (Get <$> reqs))).
Proof.
  intros reqs.
  assert (Hreqs : reqs = requests_from url inc 0 (length pages) ++
                         [request url inc (limit * Z.of_nat (length pages))]).
  { unfold reqs, page_requests. rewrite seq_S, fmap_app. done. }
  fold reqs in Hresp. rewrite Hreqs, responses_app, fmap_app in Hresp.
  apply app_inj_1 in Hresp as [Hresp' Hlast].
  2:{ by rewrite length_responses, !length_fmap, length_seq. }
  simpl in Hlast. injection Hlast as Hlast.
  unfold fetchPagedDataWithIncludes.
  pose proof (loop_advance axios_get KEY url inc pages 0%nat (mkFetchResult [] ∅) w tr
                (S (fuel - S (length pages)))) as Hadv.
  replace (length pages + S (fuel - S (length pages)))%nat with fuel in Hadv by lia.
  change (limit * Z.of_nat 0)%Z with 0%Z in Hadv.
  rewrite Hadv; [|done|done].
  rewrite (loop_step_last _ _ _ _ _ _ _ _ _ final); [|done|].
  2:{ unfold limit in *. lia. }
  rewrite Hreqs, world_after_app, foldl_app, fmap_app. simpl.
  by rewrite <- app_assoc.
Qed.

Lemma loop_shape url inc (fuel : nat) :
  ∀ (j : nat) acc w tr res st',
    loop fuel url inc (limit * Z.of_nat j) acc (w, tr) = Some (res, st') →
    ∃ (pages : list Page) (last_response : Result Page),
      let reqs := requests_from url inc j (S (length pages)) in
      (length pages < fuel)%nat ∧
      responses axios_get reqs w = (Ok <$> pages) ++ [last_response] ∧
      st' = (world_after axios_get reqs w,
             tr ++ (Get <$> reqs) ++ ending last_response url) ∧
      res = foldl add_page acc
              (pages ++ match last_response with Ok p => [p] | Throw _ => [] end).
Proof.
  induction fuel as [|fuel IH]; intros j acc w tr res st' Hrun; [done|].
  destruct ((axios_get (request url inc (limit * Z.of_nat j)) w).1)
    as [p|msg] eqn:Hresp.
  - destruct (decide (limit * Z.of_nat j + limit < default 0 (p_total p))%Z)
      as [Hmore|Hlast].
    + rewrite (loop_step_more _ _ _ _ _ _ _ _ _ p Hresp Hmore) in Hrun.
      replace (limit * Z.of_nat j + limit)%Z with (limit * Z.of_nat (S j))%Z in Hrun
        by lia.
      apply IH in Hrun as (pages & last_response & Hlen & Hresps & Hst & Hres).
      cbv zeta in *.
      set (reqs' := requests_from url inc (S j) (S (length pages))) in *.
      exists (p :: pages), last_response. cbv zeta.
      change (requests_from url inc j (S (length (p :: pages))))
        with (request url inc (limit * Z.of_nat j) :: reqs').
      split_and!.
      * simpl. lia.
      * cbn [responses]. by rewrite Hresp, Hresps.
      * rewrite Hst. cbn [world_after]. f_equal.
        rewrite fmap_cons, <- app_assoc. done.
      * by rewrite Hres.
    + rewrite (loop_step_last _ _ _ _ _ _ _ _ _ p Hresp) in Hrun by lia.
      injection Hrun as <- <-. exists [], (Ok p). simpl. split_and!.
      * lia.
      * by rewrite Hresp.
      * done.
      * done.
  - rewrite (loop_step_fail _ _ _ _ _ _ _ _ _ msg Hresp) in Hrun.
    injection Hrun as <- <-. exists [], (Throw msg). simpl. split_and!.
    + lia.
    + by rewrite Hresp.
    + done.
    + done.
Qed.

(** X9. Every call that returns has one of two shapes: it issued requests
    at the offsets 0, 100, 200, ... without gap or repetition, all of them
    answered by a page except possibly the last, and it logged nothing else
    than one warning when that last request failed; its result is made of
    exactly the pages received, in order.  No request follows a failure and
    no offset is asked twice. *)
Theorem fetch_run_shape (url inc : string) (fuel : nat) (w : W) (tr : list Event)
    (res : FetchResult) (st' : St)
    (Hrun : fetch fuel url inc (w, tr) = Some (res, st')) :
  ∃ (pages : list Page) (last_response : Result Page),
    let reqs := page_requests KEY url inc (S (length pages)) in
    (length pages < fuel)%nat ∧
    responses axios_get reqs w = (Ok <$> pages) ++ [last_response] ∧
    st' = (world_after axios_get reqs w,
           tr ++ (Get <$> reqs) ++ ending last_response url) ∧
    res = foldl add_page (mkFetchResult [] ∅)
            (pages ++ match last_response with Ok p => [p] | Throw _ => [] end) ∧
    NoDup (req_skip <$> reqs).
Proof.
  unfold fetchPagedDataWithIncludes in Hrun.
  change 0%Z with (limit * Z.of_nat 0)%Z in Hrun.
  apply loop_shape in Hrun as (pages & last_response & Hlen & Hresps & -> & ->).
  exists pages, last_response. split_and!; try done.
  unfold page_requests. rewrite <- list_fmap_compose.
  apply NoDup_fmap_2_strong; [|apply NoDup_seq].
  intros a b _ _. unfold compose, limit. simpl. lia.
Qed.

(** X10. The loop has no bound of its own: against a server that answers
    every request with a total beyond the next offset, the call never
    returns, whatever the fuel. *)
Theorem fetch_never_returns_on_growing_total (url inc : string)
    (Hgrow : ∀ w skip, ∃ p, (axios_get (request url inc skip) w).1 = Ok p ∧
                            (skip + limit < default 0 (p_total p))%Z)
    (fuel : nat) (st : St) :
  fetch fuel url inc st = None.
Proof.
  unfold fetchPagedDataWithIncludes. generalize (mkFetchResult [] ∅) 0%Z.
  revert st. induction fuel as [|fuel IH]; intros [w tr] acc skip; [done|].
  destruct (Hgrow w skip) as (p & Hp & Hmore).
  rewrite (loop_step_more _ _ _ _ _ _ _ _ _ p Hp Hmore). apply IH.
Qed.

Local Abbreviation team_include := "sys.user,sys.organizationMembership".

(** X11. A team whose first membership request fails costs one request
    and one warning and adds nothing: the loop over the teams goes on with
    the remaining teams and the map as it was. *)
Theorem team_fetch_failure_skips_team (team : Item) (rest : list Item)
    (userToTeams : gmap string (list (option string))) (teamId message : string)
    (w : W) (tr : list Event) (fuel : nat)
    (Hid : i_sys_id team = Some teamId)
    (Htruthy : teamId ≠ JS.empty_str)
    (Hfail : (axios_get (request (team_memberships_url ORG teamId) team_include 0) w).1
             = Throw message) :
  team_loop axios_get KEY ORG (S fuel) (team :: rest) userToTeams (w, tr) =
  team_loop axios_get KEY ORG (S fuel) rest userToTeams
    ((axios_get (request (team_memberships_url ORG teamId) team_include 0) w).2,
     tr ++ [Get (request (team_memberships_url ORG teamId) team_include 0);
            ConsoleError (fetch_warning (team_memberships_url ORG teamId)) message]).
Proof.
  destruct teamId as [|c s]; [done|].
  cbn [team_loop]. rewrite Hid. unfold bind, fetchPagedDataWithIncludes.
  by rewrite (loop_step_fail _ _ _ _ _ _ _ _ _ message Hfail).
Qed.

Lemma team_loop_inv (fuel : nat) (allTeams : list Item) :
  ∀ userToTeams st after st',
    userToTeams_inv userToTeams →
    team_loop axios_get KEY ORG fuel allTeams userToTeams st = Some (after, st') →
    userToTeams_inv after.
Proof.
  induction allTeams as [|team rest IH]; intros utt st after st' Hinv Hrun.
  - injection Hrun as <- _. done.
  - cbn [team_loop] in Hrun. destruct (i_sys_id team) as [[|c s]|]; try by eapply IH.
    unfold bind in Hrun.
    destruct (fetch fuel _ _ st) as [[r st1]|]; [|done].
    eapply IH; [|exact Hrun]. by apply team_members_inv.
Qed.

(** X12. Whatever the server answers, the map built by the three passes
    has no record under the empty identifier, and every record carries the
    identifier it is stored under: no output row has an empty [userId]. *)
Theorem built_map_has_no_empty_id (fuel : nat) (st st' : St)
    (userMap : gmap string UserRecord)
    (Hbuilt : build_userMap axios_get KEY ORG fuel st = Some (userMap, st')) :
  ∀ k r, userMap !! k = Some r → userId r = k ∧ k ≠ JS.empty_str.
Proof.
  unfold build_userMap, bind, ret in Hbuilt.
  destruct (fetchOrganizationMemberships _ _ _ fuel st) as [[org st1]|]; [|done].
  destruct (fetchSpaceMemberships _ _ _ fuel st1) as [[space st2]|]; [|done].
  destruct (fetchTeamMemberships _ _ _ fuel st2) as [[utt st3]|] eqn:Hteams; [|done].
  injection Hbuilt as <- <-. fold (aggregate org space utt).
  assert (Hutt : userToTeams_inv utt).
  { unfold fetchTeamMemberships, bind in Hteams.
    destruct (fetch fuel _ _ st2) as [[r st']|]; [|done].
    eapply team_loop_inv; [|exact Hteams]. intros k ts. by rewrite lookup_empty. }
  intros k r Hr. split; [by apply (aggregate_inv org space utt k r Hr)|].
  assert (Hsome : is_Some (aggregate org space utt !! k)) by (by eexists).
  apply aggregate_is_Some in Hsome as [Hk|[Hk|[ts Hk]]].
  - apply elem_of_user_ids in Hk as (it & _ & Hit).
    by apply user_id_of_Some in Hit as [_ ?].
  - apply elem_of_user_ids in Hk as (it & _ & Hit).
    by apply user_id_of_Some in Hit as [_ ?].
  - by apply (Hutt k ts).
Qed.

(** X13. When every request is rejected and the disk accepts the write,
    the script still completes: it asks each of the three list endpoints
    once, logs three warnings, asks for no team memberships, writes a table
    with the header and no data row, logs the success message and settles
    normally. *)
Theorem all_endpoints_down_writes_header_only (fuel : nat) (w : W) (tr : list Event)
    (Hdown : ∀ req w', ∃ message, (axios_get req w').1 = Throw message)
    (Hdisk : ∀ path csv w', (writeFileSync path csv w').1 = Ok ()) :
  ∃ w' e1 e2 e3,
    main axios_get writeFileSync KEY ORG (S fuel) (w, tr) =
    Some (Fulfilled,
          (w', tr ++
               [Get (request (org_url ORG) "sys.user" 0);
                ConsoleError (fetch_warning (org_url ORG)) e1;
                Get (request (space_url ORG) "sys.user" 0);
                ConsoleError (fetch_warning (space_url ORG)) e2;
                Get (request (teams_url ORG) JS.empty_str 0);
                ConsoleError (fetch_warning (teams_url ORG)) e3;
                FileWritten output_path (mkTable fields []);
                ConsoleLog success_message])).
Proof.
  destruct (Hdown (request (org_url ORG) "sys.user" 0) w) as [e1 H1].
  set (w1 := (axios_get (request (org_url ORG) "sys.user" 0) w).2).
  destruct (Hdown (request (space_url ORG) "sys.user" 0) w1) as [e2 H2].
  set (w2 := (axios_get (request (space_url ORG) "sys.user" 0) w1).2).
  destruct (Hdown (request (teams_url ORG) JS.empty_str 0) w2) as [e3 H3].
  set (w3 := (axios_get (request (teams_url ORG) JS.empty_str 0) w2).2).
  exists (writeFileSync output_path (mkTable fields []) w3).2, e1, e2, e3.
  unfold main, try_block, build_userMap, bind, ret.
  unfold fetchOrganizationMemberships, fetchSpaceMemberships,
    fetchTeamMemberships, bind, fetchPagedDataWithIncludes.
  rewrite (loop_step_fail _ _ _ _ _ _ _ _ _ e1 H1). fold w1.
  rewrite (loop_step_fail _ _ _ _ _ _ _ _ _ e2 H2). fold w2.
  rewrite (loop_step_fail _ _ _ _ _ _ _ _ _ e3 H3). fold w3.
  cbn [team_loop allItems ret].
  change (Parser_parse fields (finalData (merge_teams ∅ (merge_space
            (mkFetchResult [] ∅) (merge_org (mkFetchResult [] ∅) ∅)))))
    with (mkTable fields []).
  cbn [fst snd].
  specialize (Hdisk output_path (mkTable fields []) w3).
  destruct (writeFileSync output_path (mkTable fields []) w3) as [[[]|m] w4];
    [|discriminate Hdisk].
  unfold emit. simpl. by rewrite <- !app_assoc.
Qed.

Lemma team_requests_cons_id team rest c s :
  i_sys_id team = Some (String c s) →
  team_requests KEY ORG (team :: rest) =
  request (team_memberships_url ORG (String c s)) team_include 0
  :: team_requests KEY ORG rest.
Proof. intros Hid. unfold team_requests. simpl. by rewrite Hid. Qed.

Lemma team_requests_cons_skip team rest :
  JS.truthy (i_sys_id team) = false →
  team_requests KEY ORG (team :: rest) = team_requests KEY ORG rest.
Proof. intros Hid. unfold team_requests. simpl. by rewrite Hid. Qed.

Lemma team_loop_single_pages (fuel : nat)
    (Hsingle : ∀ req w, ∃ p, (axios_get req w).1 = Ok p ∧
                             (default 0 (p_total p) ≤ limit)%Z)
    (allTeams : list Item) :
  ∀ userToTeams w tr,
    ∃ after,
      team_loop axios_get KEY ORG (S fuel) allTeams userToTeams (w, tr) =
      Some (after, (world_after axios_get (team_requests KEY ORG allTeams) w,
                    tr ++ (Get <$> team_requests KEY ORG allTeams))).
Proof.
  induction allTeams as [|team rest IH]; intros utt w tr.
  - exists utt. simpl. by rewrite app_nil_r.
  - destruct (i_sys_id team) as [[|c s]|] eqn:Hid.
    + rewrite team_requests_cons_skip by (by rewrite Hid).
      cbn [team_loop]. rewrite Hid. apply IH.
    + rewrite (team_requests_cons_id team rest c s Hid).
      cbn [team_loop]. rewrite Hid.
      set (req := request (team_memberships_url ORG (String c s)) team_include 0).
      destruct (Hsingle req w) as (p & Hp & Hle).
      unfold bind, fetchPagedDataWithIncludes.
      rewrite (loop_step_last _ _ _ _ _ _ _ _ _ p Hp) by (unfold limit in *; lia).
      destruct (IH (foldl (team_member_step (i_name team)) utt
                          (allItems (add_page (mkFetchResult [] ∅) p)))
                   (axios_get req w).2 (tr ++ [Get req])) as [after Hafter].
      exists after. etrans; [exact Hafter|].
      cbn [world_after fmap list_fmap]. by rewrite <- app_assoc.
    + rewrite team_requests_cons_skip by (by rewrite Hid).
      cbn [team_loop]. rewrite Hid. apply IH.
Qed.

(** X14. Against a server that answers every request with a single,
    final page, fetching the team memberships asks for the team list once and
    then for the memberships of each listed team that has an identifier,
    once per team and in list order, and for nothing else; teams without an
    identifier cause no request. *)
Theorem one_request_per_identified_team (fuel : nat) (w : W) (tr : list Event)
    (Hsingle : ∀ req w', ∃ p, (axios_get req w').1 = Ok p ∧
                              (default 0 (p_total p) ≤ limit)%Z) :
  ∃ listing userToTeams w',
    (axios_get (request (teams_url ORG) JS.empty_str 0) w).1 = Ok listing ∧
    let allTeams := default [] (p_items listing) in
    fetchTeamMemberships axios_get KEY ORG (S fuel) (w, tr) =
      Some (userToTeams,
            (w', tr ++ Get (request (teams_url ORG) JS.empty_str 0)
                    :: (Get <$> team_requests KEY ORG allTeams))) ∧
    length (team_requests KEY ORG allTeams) =
      length (filter (λ team, JS.truthy (i_sys_id team) = true) allTeams).
Proof.
  destruct (Hsingle (request (teams_url ORG) JS.empty_str 0) w) as (listing & Hp & Hle).
  unfold fetchTeamMemberships, bind, fetchPagedDataWithIncludes.
  rewrite (loop_step_last _ _ _ _ _ _ _ _ _ listing Hp) by (unfold limit in *; lia).
  destruct (team_loop_single_pages fuel Hsingle
              (allItems (add_page (mkFetchResult [] ∅) listing)) ∅
              (axios_get (request (teams_url ORG) JS.empty_str 0) w).2
              (tr ++ [Get (request (teams_url ORG) JS.empty_str 0)]))
    as [after Hafter].
  exists listing, after. eexists. split; [done|]. cbv zeta.
  change (allItems (add_page (mkFetchResult [] ∅) listing))
    with (default [] (p_items listing)) in Hafter.
  split.
  - etrans; [exact Hafter|]. by rewrite <- app_assoc.
  - clear. unfold team_requests.
    induction (default [] (p_items listing)) as [|t l IH]; [done|].
    rewrite filter_cons. cbn [omap list_omap].
    destruct (JS.truthy (i_sys_id t)); simpl; [by rewrite IH|].
    rewrite IH. by destruct (decide (false = true)).
Qed.

End ScriptMore.

(** * The further properties on the sample worlds *)

Lemma side_table_last_writer_wins_witness :
  let old := mkUserObj (Some "U1") (Some "old@example.com") None None in
  let new := mkUserObj (Some "U1") (Some "new@example.com") None None in
  let pages := [mkPage None None (Some [old]); mkPage None None (Some [new])] in
  allUsers (foldl add_page (mkFetchResult [] ∅) pages) !! "U1" = Some new ∧
  new ∈ concat (includes_of <$> pages).
Proof.
  intros old new pages.
  destruct (side_table_last_writer_wins pages (mkFetchResult [] ∅) "U1")
    as [Hlookup Hfrom].
  assert (Hnew : allUsers (foldl add_page (mkFetchResult [] ∅) pages) !! "U1" = Some new).
  { rewrite Hlookup. vm_compute. reflexivity. }
  split; [exact Hnew|]. by apply (Hfrom new Hnew).
Defined.

Lemma passes_write_their_own_list_witness :
  let r := mkUserRecord "U2" JS.empty_str JS.empty_str [] ["Editor"] [Some "Design"] in
  let org := add_page (mkFetchResult [] ∅) Sample.org_page in
  merge_org org {["U2" := r]} !! "U2" = Some r ∧
  ∀ r1, merge_org org {["U2" := r]} !! "U1" = Some r1 →
        spaceRoles r1 = [] ∧ teams r1 = [].
Proof.
  intros r org.
  destruct (passes_write_their_own_list org org ∅ {["U2" := r]} "U2")
    as (Huntouched & _).
  destruct (passes_write_their_own_list org org ∅ {["U2" := r]} "U1")
    as (_ & _ & _ & Hframe & _).
  split.
  - rewrite Huntouched; [vm_compute; reflexivity|].
    vm_compute. intros Hin. apply list_elem_of_singleton in Hin. discriminate Hin.
  - intros r1 Hr1. apply (Hframe r1 Hr1).
Defined.

Lemma final_lists_closed_form_witness :
  let org := add_page (mkFetchResult [] ∅) Sample.org_page in
  let space := add_page (mkFetchResult [] ∅) Sample.space_page in
  let userToTeams : gmap string (list (option string)) :=
    {["U1" := [Some "Design"; Some "Ops"; Some "Design"]]} in
  let r := mkUserRecord "U1" "ann@example.com" "Ann Lee" ["Admin"] ["Editor"]
                        [Some "Design"; Some "Ops"] in
  aggregate org space userToTeams !! "U1" = Some r ∧
  orgRoles r = JS.dedup_first (roles_for "U1" (allItems org)) ∧
  teams r = JS.dedup_first [Some "Design"; Some "Ops"; Some "Design"].
Proof.
  intros org space userToTeams r.
  assert (Hr : aggregate org space userToTeams !! "U1" = Some r)
    by (vm_compute; reflexivity).
  destruct (final_lists_closed_form org space userToTeams "U1" r Hr)
    as (Horg & _ & Hteams).
  split; [exact Hr|]. split; [exact Horg|exact Hteams].
Defined.

Lemma final_identity_closed_form_witness :
  let org := mkFetchResult [Sample.member "U2"] ∅ in
  let space := add_page (mkFetchResult [Sample.member "U2"] ∅) Sample.space_page in
  ∃ r1 r2,
    aggregate org space ∅ !! "U1" = Some r1 ∧ email r1 = "ann@example.com" ∧
    aggregate org space ∅ !! "U2" = Some r2 ∧ email r2 = JS.empty_str.
Proof.
  intros org space.
  destruct (aggregate org space ∅ !! "U1") as [r1|] eqn:Hr1;
    [|by vm_compute in Hr1].
  destruct (aggregate org space ∅ !! "U2") as [r2|] eqn:Hr2;
    [|by vm_compute in Hr2].
  destruct (final_identity_closed_form org space ∅ "U1" r1 Hr1) as (_ & He1 & _).
  destruct (final_identity_closed_form org space ∅ "U2" r2 Hr2) as (_ & He2 & _).
  exists r1, r2. split; [done|]. split; [rewrite He1; vm_compute; reflexivity|].
  split; [done|]. rewrite He2. vm_compute. reflexivity.
Defined.

Lemma team_memberships_append_name_witness :
  let items := [Sample.member "U1"; Sample.member "U2"; Sample.member "U1"] in
  default [] (foldl (team_member_step (Some "Design")) ∅ items !! "U1") =
    [Some "Design"; Some "Design"] ∧
  userToTeams_inv (foldl (team_member_step (Some "Design")) ∅ items).
Proof.
  intros items.
  destruct (team_memberships_append_name (Some "Design") items ∅ "U1")
    as (Hentry & _ & Hinv).
  split; [rewrite Hentry; vm_compute; reflexivity|].
  apply Hinv. intros k ts. by rewrite lookup_empty.
Defined.

Lemma fetch_stops_at_first_covering_total_witness :
  ∃ res st',
    fetchPagedDataWithIncludes Sample.shrinking "tok" 2 "u" "sys.user" (0%nat, []) =
      Some (res, st') ∧
    allItems res = Sample.collection 150 ∧
    st'.2 = Get <$> [page_request "tok" "u" "sys.user" 0;
                     page_request "tok" "u" "sys.user" 100].
Proof.
  eexists _, _. split.
  - apply (fetch_stops_at_first_covering_total Sample.shrinking "tok" "u" "sys.user"
             [mkPage (Some (take 100 (Sample.collection 150))) (Some 250%Z) None]
             (mkPage (Some (drop 100 (Sample.collection 150))) (Some 150%Z) None)
             0%nat [] 2).
    + vm_compute. reflexivity.
    + intros [|i] p; [intros [= <-]; vm_compute; reflexivity|intros [=]].
    + vm_compute. discriminate.
    + simpl. lia.
  - split; vm_compute; reflexivity.
Defined.

Lemma fetch_run_shape_witness :
  ∃ (pages : list Page) (last_response : Result Page) res st',
    fetchPagedDataWithIncludes (Sample.flaky (Sample.collection 150)) "tok" 5
                               "u" "sys.user" (0%nat, []) = Some (res, st') ∧
    responses (Sample.flaky (Sample.collection 150))
              (page_requests "tok" "u" "sys.user" (S (length pages))) 0%nat =
      (Ok <$> pages) ++ [last_response] ∧
    st'.2 = (Get <$> page_requests "tok" "u" "sys.user" (S (length pages))) ++
            ending last_response "u".
Proof.
  destruct (fetchPagedDataWithIncludes (Sample.flaky (Sample.collection 150)) "tok" 5
              "u" "sys.user" (0%nat, [])) as [[res st']|] eqn:Hrun;
    [|by vm_compute in Hrun].
  destruct (fetch_run_shape (Sample.flaky (Sample.collection 150)) "tok"
              "u" "sys.user" 5 0%nat [] res st' Hrun)
    as (pages & last_response & Hlen & Hresps & Hst & Hres & Hnodup).
  exists pages, last_response, res, st'. split; [done|]. split; [exact Hresps|].
  by rewrite Hst.
Defined.

Lemma fetch_never_returns_on_growing_total_witness :
  fetchPagedDataWithIncludes Sample.endless "tok" 1000 "u" "sys.user" ((), []) = None.
Proof.
  apply (fetch_never_returns_on_growing_total Sample.endless "tok" "u" "sys.user").
  intros w skip. eexists. split; [reflexivity|]. simpl. unfold limit. lia.
Defined.

Lemma team_fetch_failure_skips_team_witness :
  let ops := mkItem (Some "T9") None (Some "Ops") None None None in
  let design := mkItem (Some "T1") None (Some "Design") None None None in
  team_loop (Sample.acme true) "tok" "acme" 1 [ops; design] ∅ ((), []) =
  team_loop (Sample.acme true) "tok" "acme" 1 [design] ∅
    ((), [Get (page_request "tok" (team_memberships_url "acme" "T9")
                            "sys.user,sys.organizationMembership" 0);
          ConsoleError (fetch_warning (team_memberships_url "acme" "T9"))
                       "Request failed with status code 404"]).
Proof.
  intros ops design.
  apply (team_fetch_failure_skips_team (Sample.acme true) "tok" "acme" ops [design] ∅
           "T9" "Request failed with status code 404" () [] 0).
  - reflexivity.
  - discriminate.
  - vm_compute. reflexivity.
Defined.

Lemma built_map_has_no_empty_id_witness :
  ∃ userMap st',
    build_userMap (Sample.acme true) "tok" "acme" 1 ((), []) = Some (userMap, st') ∧
    size userMap = 2%nat ∧
    ∀ k r, userMap !! k = Some r → userId r = k ∧ k ≠ JS.empty_str.
Proof.
  destruct (build_userMap (Sample.acme true) "tok" "acme" 1 ((), []))
    as [[userMap st']|] eqn:Hbuilt; [|by vm_compute in Hbuilt].
  exists userMap, st'. split; [done|]. split.
  - vm_compute in Hbuilt. injection Hbuilt as <- _. vm_compute. reflexivity.
  - apply (built_map_has_no_empty_id (Sample.acme true) "tok" "acme" 1 ((), []) st'
             userMap Hbuilt).
Defined.

Lemma all_endpoints_down_writes_header_only_witness :
  ∃ st',
    main Sample.down Sample.disk_ok "tok" "acme" 1 ((), []) = Some (Fulfilled, st') ∧
    FileWritten "contentful_users.csv" (mkTable fields []) ∈ st'.2.
Proof.
  destruct (all_endpoints_down_writes_header_only Sample.down Sample.disk_ok
              "tok" "acme" 0 () [])
    as (w' & e1 & e2 & e3 & Hmain).
  - intros req w. by eexists.
  - done.
  - eexists. split; [exact Hmain|]. simpl.
    do 6 apply list_elem_of_further. apply list_elem_of_here.
Defined.

Lemma one_request_per_identified_team_witness :
  ∃ userToTeams st',
    fetchTeamMemberships Sample.calm "tok" "acme" 1 ((), []) =
      Some (userToTeams, st') ∧
    st'.2 = Get <$> [page_request "tok" (teams_url "acme") JS.empty_str 0;
                     page_request "tok" (team_memberships_url "acme" "T1")
                                  "sys.user,sys.organizationMembership" 0].
Proof.
  destruct (one_request_per_identified_team Sample.calm "tok" "acme" 0 () [])
    as (listing & userToTeams & w' & Hlisting & Hrun & Hcount).
  - intros req w. unfold Sample.calm, Sample.acme.
    repeat case_decide; simpl; eexists; (split; [reflexivity|]);
      vm_compute; discriminate.
  - eexists _, _. split; [exact Hrun|].
    vm_compute in Hlisting. injection Hlisting as <-. vm_compute. reflexivity.
Defined.
